(** * html_tree_visualizer: tagging, extraction and highlighting of [script.js]

    A shallow embedding of [src/script.js].  The DOM is a rose tree of
    nodes, the global [nodeIdCounter] is threaded through the tagger as an
    explicit state, and the two surfaces (the d3 diagram and the iframe
    document) are the fields of a [Page] record that the highlight functions
    and [updateTree] transform.

    Platform parts the script calls but does not define are modelled on
    the following domains; a statement that needs one of them carries it as
    a hypothesis.
    - Strings are Rocq strings.  [trim] and [toLowerCase] are those of
      JavaScript on ASCII text ([isAscii]); they say nothing of other
      characters.
    - [nodeIdCounter] is a natural number.  A JavaScript number counts
      exactly up to [counterLimit], two to the power 53, which no pass
      started at zero reaches; a statement over other starting values
      bounds the counter.
    - [doc.querySelector] with the selector [[data-node-id='ID']] is
      attribute equality on the first element in document order.  That is
      the selector's meaning for the identifiers the tagger writes, [node-]
      and decimal digits ([nodeIdOf]); other strings may need CSS escaping
      and are outside this model.
    - [DOMParser.parseFromString] is a parameter of [updateTree] (it returns
      [doc.documentElement]).  [renderHTML] stores the tagged tree as the
      preview; [Rendered.renderHTML] takes what the parser of the iframe
      builds from the written [outerHTML] as a second parameter, and the
      statements that compare the two surfaces are made for it.
    - The listeners that [drawTree] and [addClickEventsToRenderedElements]
      attach are calls of the highlight functions; they hold no state and
      are not part of [Page]. *)

From Stdlib Require Import String Ascii Arith Bool Lia List Permutation.
From Stdlib Require Import DecimalString DecimalNat NArith.
Import ListNotations.
Open Scope string_scope.
Open Scope list_scope.
Open Scope nat_scope.

Set Implicit Arguments.
Set Warnings "-register-all".

(** ** Strings *)

Module JsString.

(** ASCII white space removed by [String.prototype.trim]: TAB, LF, VT,
    FF, CR and SPACE. *)
Definition isWhiteSpace (c : ascii) : bool :=
  let n := nat_of_ascii c in
  ((9 <=? n) && (n <=? 13)) || (n =? 32).

Fixpoint trimStart (s : string) : string :=
  match s with
  | EmptyString => EmptyString
  | String c r => if isWhiteSpace c then trimStart r else s
  end.

Fixpoint trimEnd (s : string) : string :=
  match s with
  | EmptyString => EmptyString
  | String c r =>
      match trimEnd r with
      | EmptyString => if isWhiteSpace c then EmptyString else String c EmptyString
      | r' => String c r'
      end
  end.

Definition trim (s : string) : string := trimEnd (trimStart s).

Definition lowerChar (c : ascii) : ascii :=
  let n := nat_of_ascii c in
  if (65 <=? n) && (n <=? 90) then ascii_of_nat (n + 32) else c.

Fixpoint toLowerCase (s : string) : string :=
  match s with
  | EmptyString => EmptyString
  | String c r => String (lowerChar c) (toLowerCase r)
  end.

(** Number to string conversion of a non-negative integer, as the
    template literal [`node-${n}`] performs it. *)
Definition ofNat (n : nat) : string :=
  NilEmpty.string_of_uint (Nat.to_uint n).

(** Inverse direction, used to read the numeric part of an identifier. *)
Definition toNat (s : string) : option nat :=
  match s with
  | EmptyString => None
  | _ => option_map Nat.of_uint (NilEmpty.uint_of_string s)
  end.

End JsString.

(** ** List helpers shared by the traversals *)

Section Traversals.
Variables (A B St : Type).

(** [l.forEach(x => f(x))] where [f] rewrites [x] and a threaded state. *)
Variable step : A -> St -> A * St.

Fixpoint forEachState (l : list A) (s : St) : list A * St :=
  match l with
  | [] => ([], s)
  | x :: r =>
      let '(x', s1) := step x s in
      let '(r', s2) := forEachState r s1 in
      (x' :: r', s2)
  end.

(** [l.forEach(x => { const y = f(x); if (y) out.push(y); })]. *)
Variable pick : A -> option B.

Fixpoint forEachPush (l : list A) : list B :=
  match l with
  | [] => []
  | x :: r =>
      match pick x with
      | Some y => y :: forEachPush r
      | None => forEachPush r
      end
  end.
End Traversals.

(** ** The DOM *)

(** What an element owns besides its children.  [classList] is the token
    list of the [class] attribute; every other attribute is a pair in
    [attributes], in source order. *)
Record ElementData : Type := mkElementData {
  tagName : string;
  attributes : list (string * string);
  classList : list string
}.

(** Nodes.  Text and comment nodes are leaves; a [DocumentFragment] is the
    non-element node that has children. *)
Inductive Node : Type :=
| Element (e : ElementData) (childNodes : list Node)
| Text (data : string)
| Comment (data : string)
| DocumentFragment (childNodes : list Node).

Definition nodeType (n : Node) : nat :=
  match n with
  | Element _ _ => 1
  | Text _ => 3
  | Comment _ => 8
  | DocumentFragment _ => 11
  end.

Definition isElement (n : Node) : bool := nodeType n =? 1.

Fixpoint getAttribute (name : string) (attrs : list (string * string)) : option string :=
  match attrs with
  | [] => None
  | (k, v) :: r => if String.eqb k name then Some v else getAttribute name r
  end.

(** [setAttribute] changes the value of an attribute that exists and appends
    the attribute otherwise. *)
Fixpoint setAttribute (name value : string) (attrs : list (string * string))
  : list (string * string) :=
  match attrs with
  | [] => [(name, value)]
  | (k, v) :: r =>
      if String.eqb k name then (k, value) :: r
      else (k, v) :: setAttribute name value r
  end.

Definition withAttribute (name value : string) (e : ElementData) : ElementData :=
  mkElementData (tagName e) (setAttribute name value (attributes e)) (classList e).

(** [node.textContent] of an element or fragment: the data of the text
    nodes below it, in tree order; comments do not contribute. *)
Fixpoint descendantText (n : Node) : string :=
  match n with
  | Element _ kids => String.concat "" (map descendantText kids)
  | Text d => d
  | Comment _ => ""
  | DocumentFragment kids => String.concat "" (map descendantText kids)
  end.

Definition nodeTextContent (n : Node) : string :=
  match n with
  | Comment d => d
  | _ => descendantText n
  end.

(** All elements of a subtree in document order, the order in which
    [querySelectorAll] lists them. *)
Fixpoint elements (n : Node) : list ElementData :=
  match n with
  | Element e kids => e :: flat_map elements kids
  | DocumentFragment kids => flat_map elements kids
  | _ => []
  end.

(** An element tree: an element whose descendants are elements, text and
    comments, which is what a parsed document holds below its root. *)
Fixpoint noFragment (n : Node) : bool :=
  match n with
  | Element _ kids => forallb noFragment kids
  | DocumentFragment _ => false
  | _ => true
  end.

Definition elementTree (n : Node) : bool := isElement n && noFragment n.

(** ** Identity tagger *)

Definition idAttr : string := "data-node-id".

Definition nodeIdOf (counter : nat) : string := ("node-" ++ JsString.ofNat counter)%string.

(** [assignIdsToElements element], with [nodeIdCounter] passed in and
    returned.  The tree is mutated in place in the source; here the tagged
    tree is returned. *)
Fixpoint assignIdsToElements (element : Node) (counter : nat) : Node * nat :=
  match element with
  | Element e kids =>
      let uniqueId := nodeIdOf counter in
      let e' := withAttribute idAttr uniqueId e in
      let '(kids', counter') :=
        forEachState assignIdsToElements kids (S counter) in
      (Element e' kids', counter')
  | _ => (element, counter)
  end.

(** ** Tree extractor *)

Inductive TreeNode : Type :=
  mkTreeNode {
    nodeId : option string;
    name : string;
    textContent : string;
    children : list TreeNode
  }.

Fixpoint convertToTree (element : Node) : option TreeNode :=
  match element with
  | Element e kids =>
      let nodeId := getAttribute idAttr (attributes e) in
      let textContent := JsString.trim (nodeTextContent element) in
      let children := forEachPush convertToTree kids in
      Some (mkTreeNode nodeId (JsString.toLowerCase (tagName e)) textContent children)
  | _ => None
  end.

Fixpoint treeSize (t : TreeNode) : nat :=
  S (list_sum (map treeSize (children t))).

(** Pre-order listing of a Tree Node and its descendants. *)
Fixpoint treeNodes (t : TreeNode) : list TreeNode :=
  t :: flat_map treeNodes (children t).

(** ** The two surfaces *)

(** One [g.node] group of the diagram: the Tree Node bound to it by
    [d3.hierarchy] and whether it carries the class [highlighted-node]. *)
Record VizNode : Type := mkVizNode {
  datum : TreeNode;
  highlightedNode : bool
}.

(** The mutable state of the page: the counter, the [.node] groups of
    [#treeViz] in the order they were appended, and the root element of the
    document shown in [#renderedFrame]. *)
Record Page : Type := mkPage {
  nodeIdCounter : nat;
  treeViz : list VizNode;
  preview : Node
}.

(** [hierarchy.descendants()]: breadth first, one generation after the
    other, each generation in the order of its parents.  [fuel] bounds the
    number of generations. *)
Fixpoint generations (fuel : nat) (current : list TreeNode) : list TreeNode :=
  match fuel with
  | 0 => []
  | S fuel' =>
      match current with
      | [] => []
      | _ => current ++ generations fuel' (flat_map children current)
      end
  end.

Definition descendants (root : TreeNode) : list TreeNode :=
  generations (treeSize root) [root].

(** Class lists. *)
Definition hasClass (cls : string) (e : ElementData) : bool :=
  existsb (String.eqb cls) (classList e).

Definition classListAdd (cls : string) (e : ElementData) : ElementData :=
  if hasClass cls e then e
  else mkElementData (tagName e) (attributes e) (classList e ++ [cls]).

Definition classListRemove (cls : string) (e : ElementData) : ElementData :=
  mkElementData (tagName e) (attributes e)
    (filter (fun c => negb (String.eqb cls c)) (classList e)).

(** [doc.querySelectorAll(sel).forEach(el => f(el))] for an [f] that
    changes the element it is given. *)
Fixpoint forEachMatching (sel : ElementData -> bool) (f : ElementData -> ElementData)
    (n : Node) : Node :=
  match n with
  | Element e kids =>
      Element (if sel e then f e else e) (map (forEachMatching sel f) kids)
  | DocumentFragment kids => DocumentFragment (map (forEachMatching sel f) kids)
  | _ => n
  end.

(** [const el = doc.querySelector(sel); if (el) f(el)]: the first element
    in document order that matches is changed, [found] tells whether an
    earlier one already was. *)
Fixpoint withFirstMatch (sel : ElementData -> bool) (f : ElementData -> ElementData)
    (n : Node) (found : bool) : Node * bool :=
  match n with
  | Element e kids =>
      let hit := negb found && sel e in
      let '(kids', found') :=
        forEachState (withFirstMatch sel f) kids (found || hit) in
      (Element (if hit then f e else e) kids', found')
  | DocumentFragment kids =>
      let '(kids', found') := forEachState (withFirstMatch sel f) kids found in
      (DocumentFragment kids', found')
  | _ => (n, found)
  end.

(** The selector [[data-node-id='ID']]. *)
Definition byNodeId (id : string) (e : ElementData) : bool :=
  match getAttribute idAttr (attributes e) with
  | Some v => String.eqb v id
  | None => false
  end.

(** [d.data.nodeId === id] for a string [id]. *)
Definition boundTo (id : string) (v : VizNode) : bool :=
  match nodeId (datum v) with
  | Some i => String.eqb i id
  | None => false
  end.

(** ** Highlight coordinator *)

Definition resetTreeHighlights (pg : Page) : Page :=
  mkPage (nodeIdCounter pg)
    (map (fun v => mkVizNode (datum v) false) (treeViz pg))
    (preview pg).

Definition resetHTMLHighlights (pg : Page) : Page :=
  let doc := preview pg in
  let doc := forEachMatching (hasClass "highlighted") (classListRemove "highlighted") doc in
  let doc := forEachMatching (hasClass "hovered") (classListRemove "hovered") doc in
  mkPage (nodeIdCounter pg) (treeViz pg) doc.

Definition highlightTreeNode (id : string) (pg : Page) : Page :=
  let pg := resetTreeHighlights pg in
  let pg :=
    mkPage (nodeIdCounter pg)
      (map (fun v => if boundTo id v then mkVizNode (datum v) true else v) (treeViz pg))
      (preview pg) in
  let pg := resetHTMLHighlights pg in
  let doc := fst (withFirstMatch (byNodeId id) (classListAdd "highlighted") (preview pg) false) in
  mkPage (nodeIdCounter pg) (treeViz pg) doc.

Definition highlightHTMLSide (id : string) (pg : Page) : Page :=
  let doc := fst (withFirstMatch (byNodeId id) (classListAdd "hovered") (preview pg) false) in
  mkPage (nodeIdCounter pg) (treeViz pg) doc.

Definition unhighlightHTMLSide (id : string) (pg : Page) : Page :=
  let doc := fst (withFirstMatch (byNodeId id) (classListRemove "hovered") (preview pg) false) in
  mkPage (nodeIdCounter pg) (treeViz pg) doc.

(** ** Tree visualizer and update orchestrator *)

(** [renderHTML(doc.documentElement.outerHTML)]: the iframe document is
    replaced by the tagged tree. *)
Definition renderHTML (tagged : Node) (pg : Page) : Page :=
  mkPage (nodeIdCounter pg) (treeViz pg) tagged.

(** [drawTree]: the old groups are removed and one [g.node] with the class
    [node] alone is appended for each entry of [descendants()]. *)
Definition drawTree (rootData : TreeNode) (pg : Page) : Page :=
  mkPage (nodeIdCounter pg)
    (map (fun d => mkVizNode d false) (descendants rootData))
    (preview pg).

Section Orchestrator.

(** [new DOMParser().parseFromString(html, "text/html").documentElement]. *)
Variable parseFromString : string -> Node.

Definition updateTree (html : string) (pg : Page) : Page :=
  let doc := parseFromString html in
  let pg := mkPage 0 (treeViz pg) (preview pg) in
  let '(tagged, counter) := assignIdsToElements doc (nodeIdCounter pg) in
  let pg := mkPage counter (treeViz pg) (preview pg) in
  let pg := renderHTML tagged pg in
  match convertToTree tagged with
  | Some treeData => drawTree treeData pg
  | None => pg
  end.

End Orchestrator.

(** ** Observations used by the statements *)

(** The identifier an element carries. *)
Definition identifier (e : ElementData) : option string :=
  getAttribute idAttr (attributes e).

Definition identifiers (n : Node) : list (option string) :=
  map identifier (elements n).

(** Elements carrying an identifier. *)
Definition isTagged (e : ElementData) : bool :=
  match identifier e with
  | Some _ => true
  | None => false
  end.

Definition taggedElements (n : Node) : list ElementData :=
  filter isTagged (elements n).

(** Elements of the preview carrying a marker class. *)
Definition previewMarked (cls : string) (pg : Page) : list ElementData :=
  filter (hasClass cls) (elements (preview pg)).

(** Groups of the diagram carrying [highlighted-node]. *)
Definition vizSelected (pg : Page) : list VizNode :=
  filter highlightedNode (treeViz pg).

(** The numeric part of an identifier [node-<n>]. *)
Definition numericPart (id : option string) : option nat :=
  match id with
  | Some (String "n" (String "o" (String "d" (String "e" (String "-" digits))))) =>
      JsString.toNat digits
  | _ => None
  end.

(** ** Notions used by the statements and their proofs *)

(** The identifiers [node-c], ..., [node-(c+n-1)]. *)
Definition freshIds (c n : nat) : list (option string) :=
  map (fun k => Some (nodeIdOf k)) (seq c n).

(** What one tagging pass over a node does, as a property of the pass
    started at counter [c]. *)
Definition taggedFrom (n : Node) (c : nat) : Prop :=
  let r := assignIdsToElements n c in
  snd r = c + length (elements n) /\
  identifiers (fst r) = freshIds c (length (elements n)) /\
  noFragment (fst r) = true /\
  isElement (fst r) = isElement n.

Definition taggedListFrom (kids : list Node) (c : nat) : Prop :=
  let r := forEachState assignIdsToElements kids c in
  snd r = c + length (flat_map elements kids) /\
  map identifier (flat_map elements (fst r)) = freshIds c (length (flat_map elements kids)) /\
  forallb noFragment (fst r) = true.

(** Structure preservation, stated without reference to the extractor: a
    Tree Node mirrors an element when its fields are read off the element
    and its children mirror the element children, one for one and in
    document order. *)
Inductive mirrors : TreeNode -> Node -> Prop :=
| Mirrors (t : TreeNode) (e : ElementData) (kids : list Node) :
    nodeId t = identifier e ->
    name t = JsString.toLowerCase (tagName e) ->
    textContent t = JsString.trim (descendantText (Element e kids)) ->
    Forall2 mirrors (children t) (filter isElement kids) ->
    mirrors t (Element e kids).

(** On an element tree the pre-order of the extracted tree carries the
    identifiers of the elements in document order. *)
Definition extractedIds (n : Node) : list (option string) :=
  match convertToTree n with
  | Some t => map nodeId (treeNodes t)
  | None => []
  end.

(** Consecutive subtrees: each starts where the one before it ended. *)
Section Chain.
Variable P : TreeNode -> nat -> Prop.

Fixpoint chain (l : list TreeNode) (c : nat) : Prop :=
  match l with
  | [] => True
  | k :: r => P k c /\ chain r (c + treeSize k)
  end.
End Chain.

(** [numberedFrom t c]: the root of [t] is [node-c] and its subtrees are
    numbered one after the other from [c+1]. *)
Fixpoint numberedFrom (t : TreeNode) (c : nat) {struct t} : Prop :=
  nodeId t = Some (nodeIdOf c) /\ chain numberedFrom (children t) (S c).

(** Reading the number back from the identifier. *)
Definition idBelow (x y : TreeNode) : Prop :=
  exists a b, numericPart (nodeId x) = Some a /\
              numericPart (nodeId y) = Some b /\ a < b.

(** [withFirstMatch] seen on the document-order list of elements. *)
Fixpoint firstMatchIn (sel : ElementData -> bool) (f : ElementData -> ElementData)
    (l : list ElementData) (found : bool) : list ElementData * bool :=
  match l with
  | [] => ([], found)
  | e :: r =>
      let hit := negb found && sel e in
      let '(r', found') := firstMatchIn sel f r (found || hit) in
      ((if hit then f e else e) :: r', found')
  end.

Definition selectedClass : string := "highlighted".
Definition hoveredClass : string := "hovered".

(** What [resetHTMLHighlights] does to one element. *)
Definition unmarked (e : ElementData) : ElementData :=
  let e1 := if hasClass selectedClass e then classListRemove selectedClass e else e in
  if hasClass hoveredClass e1 then classListRemove hoveredClass e1 else e1.

(** The groups of the diagram are bound to pairwise distinct identifiers. *)
Definition distinctGroups (pg : Page) : Prop :=
  NoDup (map (fun v => nodeId (datum v)) (treeViz pg)).

(** At most one marker on each surface, on [id] where there is one. *)
Definition singleSelection (id : string) (pg : Page) : Prop :=
  length (vizSelected pg) <= 1 /\
  length (previewMarked selectedClass pg) <= 1 /\
  (forall v, In v (vizSelected pg) -> nodeId (datum v) = Some id) /\
  (forall e, In e (previewMarked selectedClass pg) -> identifier e = Some id).

(** ** Sample documents *)

Definition el (tag : string) : ElementData := mkElementData tag [] [].

(** The element tree of the markup [<div>A<span>B</span></div>]. *)
Definition divSpan : Node :=
  Element (el "DIV") [Text "A"; Element (el "SPAN") [Text "B"]].

(** What the HTML parser builds for the text [<div>A<span>B</span></div>]:
    in [text/html] mode the document always has the [html], [head] and
    [body] elements, and [documentElement] is [html]. *)
Definition divSpanMarkup : string := "<div>A<span>B</span></div>".

Definition divSpanDocument : Node :=
  Element (el "HTML") [Element (el "HEAD") []; Element (el "BODY") [divSpan]].

(** The document of an empty input, and the page that shows it. *)
Definition emptyDocument : Node :=
  Element (el "HTML") [Element (el "HEAD") []; Element (el "BODY") []].

Definition blankPage : Page := mkPage 0 [] emptyDocument.

(** Markup that itself uses the class name of the hover marker. *)
Definition hoveredMarkup : string := "<p class='hovered'>x</p>".

Definition hoveredDocument : Node :=
  Element (el "HTML")
    [Element (el "HEAD") [];
     Element (el "BODY") [Element (mkElementData "P" [] ["hovered"]) [Text "x"]]].

(** The parser on the sample inputs. *)
Definition sampleParser (html : string) : Node :=
  if String.eqb html divSpanMarkup then divSpanDocument
  else if String.eqb html hoveredMarkup then hoveredDocument
  else emptyDocument.


(** ** The rest of [drawTree] and notions for the further properties *)

(** [hierarchy.links()]: one link for every node but the root, from its
    parent to it, in the order of [descendants()]. *)
Fixpoint generationLinks (fuel : nat) (current : list TreeNode)
  : list (TreeNode * TreeNode) :=
  match fuel with
  | 0 => []
  | S fuel' =>
      match current with
      | [] => []
      | _ =>
          flat_map (fun p => map (pair p) (children p)) current
            ++ generationLinks fuel' (flat_map children current)
      end
  end.

Definition links (root : TreeNode) : list (TreeNode * TreeNode) :=
  generationLinks (treeSize root) [root].

(** The text of the [title] that [drawTree] appends to a group: a string
    is truthy when it is not empty. *)
Definition titleText (d : TreeNode) : string :=
  match textContent d with
  | EmptyString => name d
  | _ => (name d ++ " : " ++ textContent d)%string
  end.

(** The text of the label of a group. *)
Definition labelText (d : TreeNode) : string := name d.

(** First and last character of a string. *)
Definition firstChar (s : string) : option ascii :=
  match s with
  | EmptyString => None
  | String c _ => Some c
  end.

Fixpoint lastChar (s : string) : option ascii :=
  match s with
  | EmptyString => None
  | String c EmptyString => Some c
  | String _ r => lastChar r
  end.

Fixpoint allWhiteSpace (s : string) : bool :=
  match s with
  | EmptyString => true
  | String c r => JsString.isWhiteSpace c && allWhiteSpace r
  end.

(** The same change made to every element of a subtree. *)
Fixpoint mapElements (g : ElementData -> ElementData) (n : Node) : Node :=
  match n with
  | Element e kids => Element (g e) (map (mapElements g) kids)
  | DocumentFragment kids => DocumentFragment (map (mapElements g) kids)
  | _ => n
  end.

(** A document with every class list emptied: what is left is all that
    the tagger and the extractor read. *)
Definition withoutClasses (e : ElementData) : ElementData :=
  mkElementData (tagName e) (attributes e) [].

Definition stripClasses (n : Node) : Node := mapElements withoutClasses n.

(** A document with the identifier attribute taken off every element. *)
Definition withoutIdentifier (e : ElementData) : ElementData :=
  mkElementData (tagName e)
    (filter (fun kv => negb (String.eqb (fst kv) idAttr)) (attributes e))
    (classList e).

Definition eraseIdentifiers (n : Node) : Node := mapElements withoutIdentifier n.

(** The test [classList.remove] filters a class list with. *)
Definition keepsOut (cls : string) (c : string) : bool := negb (String.eqb cls c).

(** The calls the handlers of the two surfaces make: a click on a circle
    or on a preview element selects, the pointer entering and leaving a
    circle sets and clears the hover. *)
Inductive Call : Type :=
| Select (id : string)
| Hover (id : string)
| Unhover (id : string).

Definition perform (pg : Page) (c : Call) : Page :=
  match c with
  | Select id => highlightTreeNode id pg
  | Hover id => highlightHTMLSide id pg
  | Unhover id => unhighlightHTMLSide id pg
  end.

Definition performAll (calls : list Call) (pg : Page) : Page :=
  fold_left perform calls pg.

(** ** Domains of the platform models and the rendered preview *)

(** Text on which [JsString.trim] and [JsString.toLowerCase] are the
    JavaScript functions. *)
Fixpoint isAscii (s : string) : bool :=
  match s with
  | EmptyString => true
  | String c r => (nat_of_ascii c <? 128) && isAscii r
  end.

(** Up to this value a JavaScript number counts exactly. *)
Definition counterLimit : N := 2 ^ 53.

(** An attribute list with the value of its identifier attribute blanked,
    where it has one: what [setAttribute] overwrites. *)
Fixpoint blankIdValue (attrs : list (string * string)) : list (string * string) :=
  match attrs with
  | [] => []
  | (k, v) :: r =>
      if String.eqb k idAttr then (k, EmptyString) :: r
      else (k, v) :: blankIdValue r
  end.

Definition withBlankId (e : ElementData) : ElementData :=
  mkElementData (tagName e) (blankIdValue (attributes e)) (classList e).

(** The blanking goes where the tagger goes: through elements, not below
    a node of another kind. *)
Fixpoint blankIdentifiers (n : Node) : Node :=
  match n with
  | Element e kids => Element (withBlankId e) (map blankIdentifiers kids)
  | _ => n
  end.

(** The update cycle with the preview as the iframe builds it. *)
Module Rendered.
Section Rendering.

(** [new DOMParser().parseFromString(html, "text/html").documentElement]. *)
Variable parseFromString : string -> Node.

(** What [doc.open(); doc.write(text); doc.close()] leaves as the root
    element of the iframe document when [text] is the [outerHTML] of the
    given node: serialisation, and parsing with scripting enabled. *)
Variable writeOuterHTML : Node -> Node.

Definition renderHTML (tagged : Node) (pg : Page) : Page :=
  mkPage (nodeIdCounter pg) (treeViz pg) (writeOuterHTML tagged).

Definition updateTree (html : string) (pg : Page) : Page :=
  let doc := parseFromString html in
  let pg := mkPage 0 (treeViz pg) (preview pg) in
  let '(tagged, counter) := assignIdsToElements doc (nodeIdCounter pg) in
  let pg := mkPage counter (treeViz pg) (preview pg) in
  let pg := renderHTML tagged pg in
  match convertToTree tagged with
  | Some treeData => drawTree treeData pg
  | None => pg
  end.

End Rendering.
End Rendered.




(** * Proofs *)

(** ** Induction over nodes and trees *)

Section NodeInduction.
Variable P : Node -> Prop.
Hypothesis P_element : forall e kids, Forall P kids -> P (Element e kids).
Hypothesis P_text : forall d, P (Text d).
Hypothesis P_comment : forall d, P (Comment d).
Hypothesis P_fragment : forall kids, Forall P kids -> P (DocumentFragment kids).

Fixpoint Node_nested_ind (n : Node) : P n :=
  match n with
  | Element e kids =>
      P_element e
        ((fix all (l : list Node) : Forall P l :=
            match l with
            | [] => Forall_nil P
            | k :: r => Forall_cons k (Node_nested_ind k) (all r)
            end) kids)
  | Text d => P_text d
  | Comment d => P_comment d
  | DocumentFragment kids =>
      P_fragment
        ((fix all (l : list Node) : Forall P l :=
            match l with
            | [] => Forall_nil P
            | k :: r => Forall_cons k (Node_nested_ind k) (all r)
            end) kids)
  end.
End NodeInduction.

Section TreeInduction.
Variable P : TreeNode -> Prop.
Hypothesis P_node : forall i nm tx kids, Forall P kids -> P (mkTreeNode i nm tx kids).

Fixpoint TreeNode_nested_ind (t : TreeNode) : P t :=
  match t with
  | mkTreeNode i nm tx kids =>
      P_node i nm tx
        ((fix all (l : list TreeNode) : Forall P l :=
            match l with
            | [] => Forall_nil P
            | k :: r => Forall_cons k (TreeNode_nested_ind k) (all r)
            end) kids)
  end.
End TreeInduction.

(** ** Identifiers are injective in the counter *)

Lemma ofNat_inj (a b : nat) : JsString.ofNat a = JsString.ofNat b -> a = b.
Proof.
  unfold JsString.ofNat. intro H.
  apply (f_equal NilEmpty.uint_of_string) in H.
  rewrite !NilEmpty.usu in H. injection H as H.
  apply (f_equal Nat.of_uint) in H.
  now rewrite !DecimalNat.Unsigned.of_to in H.
Qed.

Lemma nodeIdOf_inj (a b : nat) : nodeIdOf a = nodeIdOf b -> a = b.
Proof.
  unfold nodeIdOf. simpl. intro H. injection H as H. now apply ofNat_inj.
Qed.

Lemma ofNat_nonempty (n : nat) : JsString.ofNat n <> EmptyString.
Proof.
  unfold JsString.ofNat.
  assert (N : Nat.to_uint n <> Decimal.Nil).
  { rewrite <- (DecimalNat.Unsigned.of_to n) at 1.
    rewrite DecimalNat.Unsigned.to_of. unfold Decimal.unorm.
    destruct (Decimal.nzhead (Nat.to_uint n)); discriminate. }
  destruct (Nat.to_uint n); simpl; try discriminate. congruence.
Qed.

Lemma toNat_ofNat (n : nat) : JsString.toNat (JsString.ofNat n) = Some n.
Proof.
  unfold JsString.toNat.
  destruct (JsString.ofNat n) eqn:E.
  - now apply ofNat_nonempty in E.
  - rewrite <- E. unfold JsString.ofNat.
    rewrite NilEmpty.usu. simpl. now rewrite DecimalNat.Unsigned.of_to.
Qed.

Lemma numericPart_nodeIdOf (n : nat) : numericPart (Some (nodeIdOf n)) = Some n.
Proof. unfold nodeIdOf. simpl. apply toNat_ofNat. Qed.

(** ** Attributes *)

Lemma getAttribute_setAttribute (k v : string) (l : list (string * string)) :
  getAttribute k (setAttribute k v l) = Some v.
Proof.
  induction l as [|[k' v'] l IH]; simpl.
  - now rewrite String.eqb_refl.
  - destruct (String.eqb k' k) eqn:E; simpl; rewrite E; auto.
Qed.

Lemma identifier_withAttribute (v : string) (e : ElementData) :
  identifier (withAttribute idAttr v e) = Some v.
Proof. apply getAttribute_setAttribute. Qed.

(** ** The traversal combinators *)

Lemma NoDup_map_inj (A B : Type) (f : A -> B) (l : list A) :
  (forall a b, f a = f b -> a = b) -> NoDup l -> NoDup (map f l).
Proof.
  intros I N. induction N as [|x l Hx _ IH]; simpl; constructor; auto.
  intro M. apply in_map_iff in M as (y & E & Hy). apply I in E. now subst.
Qed.


(** ** The tagger on element trees *)

Lemma freshIds_app (c a b : nat) :
  freshIds c (a + b) = freshIds c a ++ freshIds (c + a) b.
Proof. unfold freshIds. now rewrite seq_app, map_app. Qed.

Lemma freshIds_NoDup (c n : nat) : NoDup (freshIds c n).
Proof.
  unfold freshIds. apply NoDup_map_inj.
  - intros a b H. apply nodeIdOf_inj. congruence.
  - apply seq_NoDup.
Qed.

Lemma taggedListFrom_intro (kids : list Node) :
  Forall (fun n => noFragment n = true -> forall c, taggedFrom n c) kids ->
  forallb noFragment kids = true ->
  forall c, taggedListFrom kids c.
Proof.
  induction 1 as [|k r Hk _ IH]; intros W c.
  - unfold taggedListFrom; simpl. repeat split; auto.
  - simpl in W. apply andb_true_iff in W as [Wk Wr].
    specialize (Hk Wk c). specialize (IH Wr).
    unfold taggedListFrom, taggedFrom in *. simpl.
    destruct (assignIdsToElements k c) as [k' c1]; simpl in *.
    destruct Hk as (Hc & Hi & Hw & _).
    specialize (IH c1).
    destruct (forEachState assignIdsToElements r c1) as [r' c2]; simpl in *.
    destruct IH as (Hc' & Hi' & Hw').
    rewrite length_app, map_app, freshIds_app.
    unfold identifiers in Hi. rewrite Hi, Hi', Hw, Hw', Hc', Hc.
    repeat split; auto. lia.
Qed.

Lemma assignIds_taggedFrom (n : Node) :
  noFragment n = true -> forall c, taggedFrom n c.
Proof.
  induction n as [e kids IH|d|d|kids IH] using Node_nested_ind; intros W c.
  - simpl in W. pose proof (taggedListFrom_intro IH W (S c)) as H.
    unfold taggedFrom, taggedListFrom in *. simpl.
    destruct (forEachState assignIdsToElements kids (S c)) as [kids' c'].
    simpl in *. destruct H as (Hc & Hi & Hw).
    unfold identifiers; simpl. rewrite Hi, identifier_withAttribute.
    repeat split; auto. lia.
  - unfold taggedFrom; simpl. repeat split; auto.
  - unfold taggedFrom; simpl. repeat split; auto.
  - discriminate.
Qed.

(** Tagging rewrites one attribute and nothing else: what can be read off
    an element without its attributes is as before. *)
Lemma assignIds_keeps (X : Type) (g : ElementData -> X) :
  (forall v e, g (withAttribute idAttr v e) = g e) ->
  forall n c, map g (elements (fst (assignIdsToElements n c))) = map g (elements n).
Proof.
  intros G n.
  induction n as [e kids IH|d|d|kids IH] using Node_nested_ind; intro c;
    simpl; auto.
  assert (L : forall a,
             map g (flat_map elements (fst (forEachState assignIdsToElements kids a)))
             = map g (flat_map elements kids)).
  { clear e c. induction IH as [|k r Hk _ IHr]; intro a; simpl; auto.
    specialize (Hk a). destruct (assignIdsToElements k a) as [k' a1].
    specialize (IHr a1). destruct (forEachState assignIdsToElements r a1) as [r' a2].
    simpl in *. now rewrite !map_app, Hk, IHr. }
  specialize (L (S c)).
  destruct (forEachState assignIdsToElements kids (S c)) as [kids' c'].
  simpl in *. now rewrite L, G.
Qed.

Lemma assignIds_tagNames (n : Node) (c : nat) :
  map tagName (elements (fst (assignIdsToElements n c))) = map tagName (elements n).
Proof. now apply assignIds_keeps. Qed.





(** ** The extractor *)

Lemma treeSize_treeNodes (t : TreeNode) : treeSize t = length (treeNodes t).
Proof.
  induction t as [i nm tx kids IH] using TreeNode_nested_ind. simpl. f_equal.
  induction IH as [|k r Hk _ IHr]; simpl; auto.
  now rewrite length_app, Hk, IHr.
Qed.

(** The children of an extracted node are the extractions of the element
    children, in their order. *)
Lemma forEachPush_convert_elements (kids : list Node) :
  Forall2 (fun t k => convertToTree k = Some t)
    (forEachPush convertToTree kids) (filter isElement kids).
Proof.
  induction kids as [|k r IH]; simpl; auto.
  destruct k; simpl; auto.
Qed.

Lemma convertToTree_mirrors (n : Node) :
  forall t, convertToTree n = Some t -> mirrors t n.
Proof.
  induction n as [e kids IH|d|d|kids IH] using Node_nested_ind; intros t H;
    try discriminate.
  simpl in H. injection H as <-. constructor; auto. simpl.
  induction IH as [|k r Hk _ IHr]; simpl; auto.
  destruct (convertToTree k) as [tk|] eqn:E.
  - destruct k; try discriminate. simpl. constructor; auto.
  - destruct k; try discriminate; simpl; auto.
Qed.

Lemma extractedIds_identifiers (n : Node) :
  noFragment n = true -> extractedIds n = identifiers n.
Proof.
  induction n as [e kids IH|d|d|kids IH] using Node_nested_ind; intro W;
    try discriminate; auto.
  unfold extractedIds, identifiers. simpl. f_equal. simpl in W.
  induction IH as [|k r Hk _ IHr]; simpl; auto.
  simpl in W. apply andb_true_iff in W as [Wk Wr].
  specialize (Hk Wk). specialize (IHr Wr).
  unfold extractedIds, identifiers in Hk.
  rewrite map_app, <- Hk, <- IHr.
  destruct (convertToTree k); simpl; auto. now rewrite map_app.
Qed.

Lemma convertToTree_element (n : Node) :
  isElement n = true -> exists t, convertToTree n = Some t.
Proof. destruct n; try discriminate. simpl. eauto. Qed.

(** ** Pre-order numbering of the extracted tree *)

Lemma chain_app (P : TreeNode -> nat -> Prop) (l1 l2 : list TreeNode) (c : nat) :
  chain P (l1 ++ l2) c <->
  chain P l1 c /\ chain P l2 (c + list_sum (map treeSize l1)).
Proof.
  revert c. induction l1 as [|k r IH]; intro c; simpl.
  - rewrite Nat.add_0_r. tauto.
  - rewrite IH, Nat.add_assoc. tauto.
Qed.

Lemma treeSize_pos (t : TreeNode) : 0 < treeSize t.
Proof. destruct t; simpl; lia. Qed.

Lemma assignIds_unconverted (n : Node) (c : nat) :
  convertToTree (fst (assignIdsToElements n c)) = None ->
  snd (assignIdsToElements n c) = c.
Proof.
  destruct n; simpl; auto.
  destruct (forEachState assignIdsToElements childNodes (S c)). discriminate.
Qed.

Lemma assignIds_numberedFrom (n : Node) :
  forall c t, convertToTree (fst (assignIdsToElements n c)) = Some t ->
              numberedFrom t c /\ snd (assignIdsToElements n c) = c + treeSize t.
Proof.
  induction n as [e kids IH|d|d|kids IH] using Node_nested_ind; intros c t H;
    try discriminate.
  simpl in H.
  assert (L : forall a,
             let r := forEachState assignIdsToElements kids a in
             chain numberedFrom (forEachPush convertToTree (fst r)) a /\
             snd r = a + list_sum (map treeSize (forEachPush convertToTree (fst r)))).
  { clear e c t H. induction IH as [|k r Hk _ IHr]; intro a; simpl; auto.
    specialize (Hk a). pose proof (assignIds_unconverted k a) as U.
    destruct (assignIdsToElements k a) as [k' a1].
    specialize (IHr a1). destruct (forEachState assignIdsToElements r a1) as [r' a2].
    simpl in *. destruct IHr as [Hc Hs].
    destruct (convertToTree k') as [tk|] eqn:E.
    - destruct (Hk tk eq_refl) as [Hn Ha]. subst a1. simpl.
      repeat split; auto. lia.
    - rewrite (U eq_refl) in *. auto. }
  specialize (L (S c)). simpl in *.
  destruct (forEachState assignIdsToElements kids (S c)) as [kids' c']. simpl in *.
  injection H as <-. simpl. destruct L as [Lc Ls].
  rewrite identifier_withAttribute || (unfold withAttribute; simpl;
    rewrite getAttribute_setAttribute).
  repeat split; auto. lia.
Qed.

Lemma numberedFrom_ids (t : TreeNode) :
  forall c, numberedFrom t c -> map nodeId (treeNodes t) = freshIds c (treeSize t).
Proof.
  induction t as [i nm tx kids IH] using TreeNode_nested_ind. intros c [Hi Hc].
  simpl in *. unfold freshIds at 1. simpl. f_equal; auto.
  fold (freshIds (S c) (list_sum (map treeSize kids))).
  generalize dependent (S c). clear Hi.
  induction IH as [|k r Hk _ IHr]; intros a Hc; simpl in *; auto.
  destruct Hc as [Hka Hr].
  now rewrite map_app, freshIds_app, (Hk _ Hka), (IHr _ Hr).
Qed.

Lemma numberedFrom_subtree (t : TreeNode) :
  forall c p, numberedFrom t c -> In p (treeNodes t) -> exists cp, numberedFrom p cp.
Proof.
  induction t as [i nm tx kids IH] using TreeNode_nested_ind. intros c p N [<-|H].
  - eauto.
  - destruct N as [_ N]. simpl in *. generalize dependent (S c).
    induction IH as [|k r Hk _ IHr]; intros a N; simpl in *; [contradiction|].
    destruct N as [Nk Nr]. apply in_app_or in H as [H|H]; eauto.
Qed.

Lemma numberedFrom_number (t : TreeNode) (c : nat) :
  numberedFrom t c -> numericPart (nodeId t) = Some c.
Proof.
  destruct t. intros [H _]. simpl in *. rewrite H. apply numericPart_nodeIdOf.
Qed.

Lemma chain_member (l : list TreeNode) (c : nat) (k : TreeNode) :
  chain numberedFrom l c -> In k l -> exists ck, c <= ck /\ numberedFrom k ck.
Proof.
  revert c. induction l as [|x r IH]; intros c H M; [contradiction|].
  destruct H as [Hx Hr]. destruct M as [<-|M]; eauto.
  destruct (IH _ Hr M) as (ck & L & N). exists ck. split; auto. lia.
Qed.

Lemma chain_ordered (l1 l2 l3 : list TreeNode) (a b : TreeNode) (c : nat) :
  chain numberedFrom (l1 ++ a :: l2 ++ b :: l3) c -> idBelow a b.
Proof.
  intro H. apply chain_app in H as [_ H]. simpl in H. destruct H as [Ha H].
  assert (M : In b (l2 ++ b :: l3)) by (apply in_or_app; right; now left).
  destruct (@chain_member _ _ _ H M) as (cb & L & Nb).
  pose proof (treeSize_pos a).
  eexists _, cb. repeat split; eauto using numberedFrom_number. lia.
Qed.

Lemma numberedFrom_child (p k : TreeNode) (c : nat) :
  numberedFrom p c -> In k (children p) -> idBelow p k.
Proof.
  intros N M. pose proof (@numberedFrom_number _ _ N) as Hp.
  destruct p; destruct N as [_ N]; simpl in *.
  destruct (@chain_member _ _ _ N M) as (ck & L & Nk).
  exists c, ck. repeat split; eauto using numberedFrom_number.
Qed.

(** ** Breadth-first listing *)

Lemma treeNodes_unfold (t : TreeNode) :
  treeNodes t = t :: flat_map treeNodes (children t).
Proof. now destruct t. Qed.

Lemma treeNodes_generation (l : list TreeNode) :
  Permutation (flat_map treeNodes l) (l ++ flat_map treeNodes (flat_map children l)).
Proof.
  induction l as [|t r IH]; simpl; auto.
  rewrite treeNodes_unfold. simpl.
  apply perm_skip. rewrite flat_map_app.
  transitivity (flat_map treeNodes (children t)
                  ++ r ++ flat_map treeNodes (flat_map children r)).
  - apply Permutation_app_head, IH.
  - rewrite !app_assoc. apply Permutation_app_tail, Permutation_app_comm.
Qed.

Lemma generations_treeNodes (fuel : nat) :
  forall l, list_sum (map treeSize l) <= fuel ->
            Permutation (generations fuel l) (flat_map treeNodes l).
Proof.
  induction fuel as [|f IH]; intros l H.
  - destruct l as [|t r]; simpl in *; auto. pose proof (treeSize_pos t). lia.
  - destruct l as [|t r]; [simpl; auto|].
    change (generations (S f) (t :: r))
      with ((t :: r) ++ generations f (flat_map children (t :: r))).
    rewrite (treeNodes_generation (t :: r)).
    apply Permutation_app_head, IH.
    clear IH.
    assert (E : forall l, list_sum (map treeSize l)
                          = length l + list_sum (map treeSize (flat_map children l))).
    { clear. induction l as [|x l IH]; simpl; auto.
      rewrite map_app, list_sum_app, IH. destruct x; simpl. lia. }
    rewrite (E (t :: r)) in H. simpl length in H. lia.
Qed.

Lemma descendants_treeNodes (t : TreeNode) :
  Permutation (descendants t) (treeNodes t).
Proof.
  unfold descendants. rewrite generations_treeNodes; simpl; try lia.
  now rewrite app_nil_r.
Qed.

(** ** Class lists *)

Lemma hasClass_add_same (cls : string) (e : ElementData) :
  hasClass cls (classListAdd cls e) = true.
Proof.
  unfold classListAdd. destruct (hasClass cls e) eqn:E; auto.
  unfold hasClass. simpl. rewrite existsb_app. simpl.
  now rewrite String.eqb_refl, orb_true_r.
Qed.

Lemma hasClass_add_other (cls other : string) (e : ElementData) :
  cls <> other -> hasClass other (classListAdd cls e) = hasClass other e.
Proof.
  intro D. unfold classListAdd. destruct (hasClass cls e); auto.
  unfold hasClass. simpl. rewrite existsb_app. simpl.
  apply String.eqb_neq in D. rewrite String.eqb_sym, D. now rewrite !orb_false_r.
Qed.

Lemma hasClass_remove_same (cls : string) (e : ElementData) :
  hasClass cls (classListRemove cls e) = false.
Proof.
  unfold hasClass, classListRemove. simpl.
  induction (classList e) as [|c r IH]; simpl; auto.
  destruct (String.eqb cls c) eqn:E; simpl; auto. now rewrite E.
Qed.

Lemma hasClass_remove_other (cls other : string) (e : ElementData) :
  cls <> other -> hasClass other (classListRemove cls e) = hasClass other e.
Proof.
  intro D. unfold hasClass, classListRemove. simpl.
  induction (classList e) as [|c r IH]; simpl; auto.
  destruct (String.eqb cls c) eqn:E; simpl; rewrite IH; auto.
  apply String.eqb_eq in E. subst c.
  apply String.eqb_neq in D. rewrite String.eqb_sym, D. auto.
Qed.

Lemma identifier_classListAdd (cls : string) (e : ElementData) :
  identifier (classListAdd cls e) = identifier e.
Proof. unfold classListAdd. now destruct (hasClass cls e). Qed.

Lemma byNodeId_identifier (id : string) (e : ElementData) :
  byNodeId id e = true <-> identifier e = Some id.
Proof.
  unfold byNodeId, identifier. destruct (getAttribute idAttr (attributes e)).
  - rewrite String.eqb_eq. split; congruence.
  - split; discriminate.
Qed.

Lemma boundTo_nodeId (id : string) (v : VizNode) :
  boundTo id v = true <-> nodeId (datum v) = Some id.
Proof.
  unfold boundTo. destruct (nodeId (datum v)).
  - rewrite String.eqb_eq. split; congruence.
  - split; discriminate.
Qed.

(** ** The document as the list of its elements *)

Section Selectors.
Variables (sel : ElementData -> bool) (f : ElementData -> ElementData).

Lemma firstMatchIn_app (l1 l2 : list ElementData) (b : bool) :
  firstMatchIn sel f (l1 ++ l2) b =
  (fst (firstMatchIn sel f l1 b) ++ fst (firstMatchIn sel f l2 (snd (firstMatchIn sel f l1 b))),
   snd (firstMatchIn sel f l2 (snd (firstMatchIn sel f l1 b)))).
Proof.
  revert b. induction l1 as [|e r IH]; intro b; simpl.
  - now destruct (firstMatchIn sel f l2 b).
  - rewrite IH. destruct (firstMatchIn sel f r (b || negb b && sel e)). reflexivity.
Qed.

Lemma forEachMatching_elements (n : Node) :
  elements (forEachMatching sel f n)
  = map (fun e => if sel e then f e else e) (elements n).
Proof.
  induction n as [e kids IH|d|d|kids IH] using Node_nested_ind; simpl; auto.
  - f_equal. induction IH as [|k r Hk _ IHr]; simpl; auto.
    now rewrite map_app, Hk, IHr.
  - induction IH as [|k r Hk _ IHr]; simpl; auto.
    now rewrite map_app, Hk, IHr.
Qed.

Lemma withFirstMatch_children (kids : list Node) :
  Forall (fun n => forall b,
            (elements (fst (withFirstMatch sel f n b)), snd (withFirstMatch sel f n b))
            = firstMatchIn sel f (elements n) b) kids ->
  forall b,
    (flat_map elements (fst (forEachState (withFirstMatch sel f) kids b)),
     snd (forEachState (withFirstMatch sel f) kids b))
    = firstMatchIn sel f (flat_map elements kids) b.
Proof.
  induction 1 as [|k r Hk _ IHr]; intro b; simpl; auto.
  rewrite firstMatchIn_app. specialize (Hk b).
  destruct (withFirstMatch sel f k b) as [k' b1]. simpl in Hk.
  specialize (IHr b1).
  destruct (forEachState (withFirstMatch sel f) r b1) as [r' b2]. simpl in *.
  rewrite <- Hk. simpl. rewrite <- IHr. reflexivity.
Qed.

Lemma withFirstMatch_elements (n : Node) :
  forall b,
    (elements (fst (withFirstMatch sel f n b)), snd (withFirstMatch sel f n b))
    = firstMatchIn sel f (elements n) b.
Proof.
  induction n as [e kids IH|d|d|kids IH] using Node_nested_ind; intro b;
    simpl; auto.
  - pose proof (withFirstMatch_children IH (b || negb b && sel e)) as H.
    destruct (forEachState (withFirstMatch sel f) kids (b || negb b && sel e)).
    simpl in *. rewrite <- H. reflexivity.
  - pose proof (withFirstMatch_children IH b) as H.
    destruct (forEachState (withFirstMatch sel f) kids b).
    simpl in *. rewrite <- H. reflexivity.
Qed.

Lemma withFirstMatch_elements_fst (n : Node) (b : bool) :
  elements (fst (withFirstMatch sel f n b)) = fst (firstMatchIn sel f (elements n) b).
Proof. now rewrite <- withFirstMatch_elements. Qed.

Lemma firstMatchIn_found (l : list ElementData) :
  firstMatchIn sel f l true = (l, true).
Proof. induction l as [|e r IH]; simpl; auto. now rewrite IH. Qed.

(** Either nothing matches and the list is left as it is, or the list
    splits at its first match, which alone is changed. *)
Lemma firstMatchIn_split (l : list ElementData) :
  (Forall (fun e => sel e = false) l /\ fst (firstMatchIn sel f l false) = l) \/
  (exists l1 e l2,
      l = l1 ++ e :: l2 /\ Forall (fun x => sel x = false) l1 /\ sel e = true /\
      fst (firstMatchIn sel f l false) = l1 ++ f e :: l2).
Proof.
  induction l as [|e r IH]; simpl.
  - left. split; auto.
  - destruct (sel e) eqn:E; simpl.
    + right. exists [], e, r. rewrite firstMatchIn_found. simpl. auto.
    + destruct (firstMatchIn sel f r false) as [r' b] eqn:R. simpl in *.
      destruct IH as [[A B]|(l1 & x & l2 & A & B & C & D)].
      * left. split; [constructor; auto | congruence].
      * right. exists (e :: l1), x, l2. subst. simpl. auto.
Qed.
End Selectors.

(** ** The highlight functions on the element list *)

Lemma unmarked_selected (e : ElementData) : hasClass selectedClass (unmarked e) = false.
Proof.
  unfold unmarked.
  set (e1 := if hasClass selectedClass e then classListRemove selectedClass e else e).
  assert (H : hasClass selectedClass e1 = false).
  { unfold e1. destruct (hasClass selectedClass e) eqn:E; auto.
    apply hasClass_remove_same. }
  destruct (hasClass hoveredClass e1); auto.
  rewrite hasClass_remove_other; auto. discriminate.
Qed.

Lemma unmarked_hovered (e : ElementData) : hasClass hoveredClass (unmarked e) = false.
Proof.
  unfold unmarked.
  set (e1 := if hasClass selectedClass e then classListRemove selectedClass e else e).
  destruct (hasClass hoveredClass e1) eqn:E; auto. apply hasClass_remove_same.
Qed.

Lemma unmarked_identifier (e : ElementData) : identifier (unmarked e) = identifier e.
Proof.
  unfold unmarked.
  destruct (hasClass selectedClass e); destruct (hasClass hoveredClass _); reflexivity.
Qed.

Lemma resetHTMLHighlights_elements (pg : Page) :
  elements (preview (resetHTMLHighlights pg)) = map unmarked (elements (preview pg)).
Proof.
  unfold resetHTMLHighlights. simpl.
  rewrite !forEachMatching_elements, map_map. reflexivity.
Qed.

Lemma highlightTreeNode_elements (id : string) (pg : Page) :
  elements (preview (highlightTreeNode id pg))
  = fst (firstMatchIn (byNodeId id) (classListAdd selectedClass)
           (map unmarked (elements (preview pg))) false).
Proof.
  unfold highlightTreeNode. cbn [preview].
  rewrite withFirstMatch_elements_fst, resetHTMLHighlights_elements. reflexivity.
Qed.

Lemma highlightHTMLSide_elements (id : string) (pg : Page) :
  elements (preview (highlightHTMLSide id pg))
  = fst (firstMatchIn (byNodeId id) (classListAdd hoveredClass)
           (elements (preview pg)) false).
Proof. unfold highlightHTMLSide. cbn [preview]. apply withFirstMatch_elements_fst. Qed.

Lemma unhighlightHTMLSide_elements (id : string) (pg : Page) :
  elements (preview (unhighlightHTMLSide id pg))
  = fst (firstMatchIn (byNodeId id) (classListRemove hoveredClass)
           (elements (preview pg)) false).
Proof. unfold unhighlightHTMLSide. cbn [preview]. apply withFirstMatch_elements_fst. Qed.

Lemma filter_none (A : Type) (q : A -> bool) (l : list A) :
  Forall (fun x => q x = false) l -> filter q l = [].
Proof.
  induction 1 as [|x r Hx _ IH]; simpl; auto. now rewrite Hx.
Qed.

Lemma filter_nil_Forall (A : Type) (q : A -> bool) (l : list A) :
  filter q l = [] -> Forall (fun x => q x = false) l.
Proof.
  induction l as [|x r IH]; simpl; auto.
  destruct (q x) eqn:E; [discriminate|]. auto.
Qed.

(** The diagram after a selection. *)
Lemma highlightTreeNode_treeViz (id : string) (pg : Page) :
  treeViz (highlightTreeNode id pg)
  = map (fun v => mkVizNode (datum v) (boundTo id v)) (treeViz pg).
Proof.
  unfold highlightTreeNode. simpl. rewrite map_map. apply map_ext.
  intro v. unfold boundTo. simpl. destruct (nodeId (datum v)) as [i|]; auto.
  destruct (String.eqb i id); auto.
Qed.

Lemma highlightTreeNode_data (id : string) (pg : Page) :
  map datum (treeViz (highlightTreeNode id pg)) = map datum (treeViz pg).
Proof. rewrite highlightTreeNode_treeViz, map_map. reflexivity. Qed.

Lemma at_most_one_key (A K : Type) (key : A -> K) (q : A -> bool) (k : K) (l : list A) :
  NoDup (map key l) -> (forall x, In x l -> q x = true -> key x = k) ->
  length (filter q l) <= 1.
Proof.
  intros N Q. induction l as [|x r IH]; simpl; auto.
  inversion N as [|? ? Hx Nr]; subst.
  assert (Qr : forall y, In y r -> q y = true -> key y = k)
    by (intros y Hy; apply Q; now right).
  specialize (IH Nr Qr).
  destruct (q x) eqn:E; auto. simpl.
  assert (F : filter q r = []).
  { apply filter_none. apply Forall_forall. intros y Hy.
    destruct (q y) eqn:Ey; auto. exfalso. apply Hx.
    rewrite (Q x (or_introl eq_refl) E), <- (Qr y Hy Ey). now apply in_map. }
  rewrite F. simpl. lia.
Qed.

(** ** One update cycle *)

Section UpdateCycle.
Variable parseFromString : string -> Node.

Lemma updateTree_preview (html : string) (pg : Page) :
  preview (updateTree parseFromString html pg)
  = fst (assignIdsToElements (parseFromString html) 0).
Proof.
  unfold updateTree. cbn [nodeIdCounter].
  destruct (assignIdsToElements (parseFromString html) 0) as [tagged c].
  destruct (convertToTree tagged); reflexivity.
Qed.

Lemma updateTree_counter (html : string) (pg : Page) :
  nodeIdCounter (updateTree parseFromString html pg)
  = snd (assignIdsToElements (parseFromString html) 0).
Proof.
  unfold updateTree. cbn [nodeIdCounter].
  destruct (assignIdsToElements (parseFromString html) 0) as [tagged c].
  destruct (convertToTree tagged); reflexivity.
Qed.

Lemma assignIds_isElement (n : Node) (c : nat) :
  isElement (fst (assignIdsToElements n c)) = isElement n.
Proof.
  destruct n; simpl; auto.
  now destruct (forEachState assignIdsToElements childNodes (S c)).
Qed.

Lemma updateTree_treeViz (html : string) (pg : Page) :
  isElement (parseFromString html) = true ->
  exists t,
    convertToTree (fst (assignIdsToElements (parseFromString html) 0)) = Some t /\
    treeViz (updateTree parseFromString html pg)
    = map (fun d => mkVizNode d false) (descendants t).
Proof.
  intro E. unfold updateTree. cbn [nodeIdCounter].
  pose proof (assignIds_isElement (parseFromString html) 0) as I.
  destruct (assignIdsToElements (parseFromString html) 0) as [tagged c].
  simpl in *. rewrite E in I. destruct (convertToTree_element _ I) as [t Ht].
  rewrite Ht. exists t. split; auto.
Qed.


End UpdateCycle.

(** * Properties of the specification *)

(** C1.  For an element tree with [N] elements, a tagging pass started at
    counter zero ends with the counter at [N] and leaves the elements, read
    in document (depth-first pre-) order, with the identifiers [node-0],
    ..., [node-(N-1)], which are pairwise distinct; the elements keep their
    tag names.  An update cycle resets the counter, so a second cycle on the
    same input tags a fresh parse with the same identifiers. *)
Theorem tagger_numbers_elements_in_preorder (root : Node) :
  elementTree root = true ->
  let N := length (elements root) in
  let pass := assignIdsToElements root 0 in
  snd pass = N /\
  identifiers (fst pass) = map (fun k => Some (nodeIdOf k)) (seq 0 N) /\
  NoDup (identifiers (fst pass)) /\
  length (elements (fst pass)) = N /\
  map tagName (elements (fst pass)) = map tagName (elements root) /\
  forall (parseFromString : string -> Node) (html : string) (pg : Page),
    parseFromString html = root ->
    let first := updateTree parseFromString html pg in
    let second := updateTree parseFromString html first in
    preview first = fst pass /\
    preview second = fst pass /\
    nodeIdCounter second = N.
Proof.
  intros W N pass. apply andb_true_iff in W as [_ W].
  destruct (assignIds_taggedFrom root W 0) as (Hc & Hi & _ & _).
  fold pass in Hc, Hi. fold N in Hc, Hi. simpl in Hc.
  assert (L : length (elements (fst pass)) = N).
  { apply (f_equal (@length _)) in Hi. unfold identifiers, freshIds in Hi.
    now rewrite !length_map, length_seq in Hi. }
  repeat split; auto.
  - rewrite Hi. apply freshIds_NoDup.
  - apply assignIds_tagNames.
  - rewrite updateTree_preview. now subst root.
  - rewrite updateTree_preview. now subst root.
  - rewrite updateTree_counter. now subst root.
Qed.

Lemma tagger_numbers_elements_in_preorder_witness :
  let pass := assignIdsToElements divSpanDocument 0 in
  snd pass = 5 /\
  identifiers (fst pass)
  = [Some "node-0"; Some "node-1"; Some "node-2"; Some "node-3"; Some "node-4"].
Proof.
  destruct (tagger_numbers_elements_in_preorder divSpanDocument eq_refl)
    as (Hc & Hi & _).
  split; [exact Hc | exact Hi].
Defined.

(** C2.  On an element tree all of whose elements carry an identifier the
    extractor returns a tree with as many Tree Nodes as there are tagged
    elements; every Tree Node mirrors its element, its children being the
    extractions of the element children one for one in document order; and
    the pre-order of the Tree Nodes carries the identifiers in document
    order. *)
Theorem extraction_preserves_structure (n : Node) :
  elementTree n = true ->
  (forall e, In e (elements n) -> isTagged e = true) ->
  exists t,
    convertToTree n = Some t /\
    treeSize t = length (taggedElements n) /\
    mirrors t n /\
    map nodeId (treeNodes t) = identifiers n.
Proof.
  intros W T. apply andb_true_iff in W as [E W].
  destruct (convertToTree_element _ E) as [t Ht]. exists t.
  pose proof (extractedIds_identifiers n W) as I.
  unfold extractedIds in I. rewrite Ht in I.
  repeat split; auto.
  - rewrite treeSize_treeNodes. unfold taggedElements.
    assert (F : filter isTagged (elements n) = elements n).
    { apply forallb_filter_id. apply forallb_forall. exact T. }
    rewrite F. apply (f_equal (@length _)) in I.
    unfold identifiers in I. now rewrite !length_map in I.
  - now apply convertToTree_mirrors.
Qed.

Lemma extraction_preserves_structure_witness :
  exists t,
    convertToTree (fst (assignIdsToElements divSpanDocument 0)) = Some t /\
    treeSize t = 5.
Proof.
  destruct (extraction_preserves_structure
              (fst (assignIdsToElements divSpanDocument 0)) eq_refl)
    as (t & Ht & Hs & _).
  - intros e H. simpl in H.
    repeat (destruct H as [<-|H]; [reflexivity|]). contradiction.
  - exists t. split; [exact Ht | exact Hs].
Defined.

(** C9.  An element without the identifier attribute is extracted all the
    same: the result exists, its identifier is absent, its name is the
    lower-cased tag name, its text the trimmed text of the subtree, its
    children the extractions of the element children in order; apart from
    the identifier it is what the same element yields once tagged. *)
Theorem untagged_element_is_extracted (e : ElementData) (kids : list Node) :
  identifier e = None ->
  exists t,
    convertToTree (Element e kids) = Some t /\
    nodeId t = None /\
    name t = JsString.toLowerCase (tagName e) /\
    textContent t = JsString.trim (descendantText (Element e kids)) /\
    Forall2 (fun tk k => convertToTree k = Some tk) (children t) (filter isElement kids) /\
    forall id,
      convertToTree (Element (withAttribute idAttr id e) kids)
      = Some (mkTreeNode (Some id) (name t) (textContent t) (children t)).
Proof.
  intro H. eexists. split; [reflexivity|]. simpl.
  repeat split; auto.
  - apply forEachPush_convert_elements.
  - intro id. now rewrite getAttribute_setAttribute.
Qed.

Lemma untagged_element_is_extracted_witness :
  exists t,
    convertToTree divSpan = Some t /\ nodeId t = None /\ name t = "div".
Proof.
  destruct (@untagged_element_is_extracted (el "DIV")
              [Text "A"; Element (el "SPAN") [Text "B"]] eq_refl)
    as (t & Ht & Hi & Hn & _).
  exists t. repeat split; [exact Ht | exact Hi | exact Hn].
Defined.

(** C10.  In the tree extracted after a tagging pass over an element, every
    Tree Node carries a number greater than that of its parent, and among
    the children of one node the numbers grow from first to last. *)
Theorem extracted_numbers_increase (root : Node) (c : nat) :
  isElement root = true ->
  exists t,
    convertToTree (fst (assignIdsToElements root c)) = Some t /\
    forall p, In p (treeNodes t) ->
      (forall k, In k (children p) -> idBelow p k) /\
      (forall l1 a l2 b l3, children p = l1 ++ a :: l2 ++ b :: l3 -> idBelow a b).
Proof.
  intro E. rewrite <- (assignIds_isElement root c) in E.
  destruct (convertToTree_element _ E) as [t Ht]. exists t. split; auto.
  destruct (@assignIds_numberedFrom _ _ _ Ht) as [N _].
  intros p Hp. destruct (@numberedFrom_subtree _ _ _ N Hp) as [cp Np].
  split.
  - intros k Hk. eapply numberedFrom_child; eauto.
  - intros l1 a l2 b l3 Hl. destruct p as [i nm tx kids]. destruct Np as [_ Np].
    simpl in *. subst kids. eapply chain_ordered; eauto.
Qed.

Lemma extracted_numbers_increase_witness :
  exists t,
    convertToTree (fst (assignIdsToElements divSpanDocument 0)) = Some t /\
    forall k, In k (children t) -> idBelow t k.
Proof.
  destruct (@extracted_numbers_increase divSpanDocument 0 eq_refl) as (t & Ht & H).
  exists t. split; [exact Ht|].
  apply (H t). rewrite treeNodes_unfold. left. reflexivity.
Defined.




(** C6, as the code has it.  For the input [<div>A<span>B</span></div>]
    the parser builds [html] with [head] and [body], the [div] inside
    [body].  An update cycle numbers [html], [head], [body], [div], [span]
    as [node-0] to [node-4]; the extracted tree has [html] as its root with
    the children [head] and [body]; [body] has the one child [div] with text
    AB, which has the one child [span] with text B.  The tagger and the
    extractor run on the [div] subtree alone give [node-0] and [node-1]. *)
Theorem div_span_update_cycle (parseFromString : string -> Node) (pg : Page) :
  parseFromString divSpanMarkup = divSpanDocument ->
  let pg' := updateTree parseFromString divSpanMarkup pg in
  let span i := mkTreeNode (Some i) "span" "B" [] in
  let div i j := mkTreeNode (Some i) "div" "AB" [span j] in
  map (fun e => (tagName e, identifier e)) (elements (preview pg'))
  = [("HTML", Some "node-0"); ("HEAD", Some "node-1"); ("BODY", Some "node-2");
     ("DIV", Some "node-3"); ("SPAN", Some "node-4")] /\
  convertToTree (preview pg')
  = Some (mkTreeNode (Some "node-0") "html" "AB"
            [mkTreeNode (Some "node-1") "head" "" [];
             mkTreeNode (Some "node-2") "body" "AB" [div "node-3" "node-4"]]) /\
  map (fun v => (nodeId (datum v), name (datum v))) (treeViz pg')
  = [(Some "node-0", "html"); (Some "node-1", "head"); (Some "node-2", "body");
     (Some "node-3", "div"); (Some "node-4", "span")] /\
  nodeIdCounter pg' = 5 /\
  convertToTree (fst (assignIdsToElements divSpan 0)) = Some (div "node-0" "node-1").
Proof.
  intro H. unfold updateTree. rewrite H. repeat split; reflexivity.
Qed.

Lemma div_span_update_cycle_witness :
  nodeIdCounter (updateTree sampleParser divSpanMarkup blankPage) = 5.
Proof.
  destruct (@div_span_update_cycle sampleParser blankPage eq_refl)
    as (_ & _ & _ & Hc & _).
  exact Hc.
Defined.

(** C6, counterexample.  After an update cycle on
    [<div>A<span>B</span></div>] the identifier [node-0] is on [html], the
    root of the extracted tree is [html], and the [div] carries [node-3]. *)
Lemma div_is_not_node_0 :
  let pg := updateTree sampleParser divSpanMarkup blankPage in
  option_map (fun t => (nodeId t, name t)) (convertToTree (preview pg))
  = Some (Some "node-0", "html") /\
  map identifier (filter (fun e => String.eqb (tagName e) "DIV") (elements (preview pg)))
  = [Some "node-3"] /\
  map identifier (filter (fun e => String.eqb (tagName e) "SPAN") (elements (preview pg)))
  = [Some "node-4"].
Proof. repeat split; reflexivity. Qed.

(** ** Selections and hovers *)

Section NothingMatches.
Variables (sel : ElementData -> bool) (f : ElementData -> ElementData).

Lemma forEachMatching_none (n : Node) :
  (forall e, In e (elements n) -> sel e = false) -> forEachMatching sel f n = n.
Proof.
  induction n as [e kids IH|d|d|kids IH] using Node_nested_ind; intro H;
    simpl; auto.
  - rewrite (H e (or_introl eq_refl)). f_equal.
    assert (K : forall x, In x (flat_map elements kids) -> sel x = false)
      by (intros x Hx; apply H; now right).
    clear H. induction IH as [|k r Hk _ IHr]; simpl in *; auto.
    rewrite Hk, IHr; auto; intros x Hx; apply K, in_or_app; auto.
  - f_equal. simpl in H.
    induction IH as [|k r Hk _ IHr]; simpl in *; auto.
    rewrite Hk, IHr; auto; intros x Hx; apply H, in_or_app; auto.
Qed.

Lemma withFirstMatch_none_children (kids : list Node) :
  Forall (fun n => (forall e, In e (elements n) -> sel e = false) ->
                   withFirstMatch sel f n false = (n, false)) kids ->
  (forall e, In e (flat_map elements kids) -> sel e = false) ->
  forEachState (withFirstMatch sel f) kids false = (kids, false).
Proof.
  induction 1 as [|k r Hk _ IHr]; intro H; simpl in *; auto.
  rewrite Hk, IHr; auto; intros x Hx; apply H, in_or_app; auto.
Qed.

Lemma withFirstMatch_none (n : Node) :
  (forall e, In e (elements n) -> sel e = false) ->
  withFirstMatch sel f n false = (n, false).
Proof.
  induction n as [e kids IH|d|d|kids IH] using Node_nested_ind; intro H;
    simpl; auto.
  - rewrite (H e (or_introl eq_refl)). simpl.
    rewrite (withFirstMatch_none_children IH); auto.
    intros x Hx. apply H. now right.
  - rewrite (withFirstMatch_none_children IH); auto.
Qed.
End NothingMatches.

Lemma firstMatchIn_none (sel : ElementData -> bool) (f : ElementData -> ElementData)
    (l : list ElementData) :
  (forall e, In e l -> sel e = false) -> fst (firstMatchIn sel f l false) = l.
Proof.
  intro H. destruct (firstMatchIn_split sel f l) as [[_ E]|(l1 & e & l2 & -> & _ & S & _)];
    auto.
  rewrite H in S; [discriminate|]. apply in_or_app. right. now left.
Qed.

Lemma filter_map_none (A B : Type) (g : A -> B) (q : B -> bool) (l : list A) :
  (forall x, q (g x) = false) -> filter q (map g l) = [].
Proof.
  intro H. apply filter_none, Forall_forall. intros y Hy.
  apply in_map_iff in Hy as (x & <- & _). apply H.
Qed.

Lemma vizSelected_none (pg : Page) :
  vizSelected pg = [] ->
  map (fun v => mkVizNode (datum v) false) (treeViz pg) = treeViz pg.
Proof.
  unfold vizSelected. intro H. apply filter_nil_Forall in H.
  induction H as [|v r Hv _ IH]; simpl; auto.
  rewrite IH. destruct v. simpl in *. now subst.
Qed.

(** C7, as the code has it.  Selecting an identifier [node-k] that matches
    nothing on either surface raises no error and removes the markers: afterwards no
    group of the diagram and no element of the preview is selected and no
    element is hovered; the counter, the data bound to the groups and the
    identifiers of the preview are as before.  The page is left exactly as
    it was when it carried no marker. *)
Theorem selecting_unmatched_id_clears_markers (k : nat) (pg : Page) :
  (forall v, In v (treeViz pg) -> boundTo (nodeIdOf k) v = false) ->
  (forall e, In e (elements (preview pg)) -> byNodeId (nodeIdOf k) e = false) ->
  let pg' := highlightTreeNode (nodeIdOf k) pg in
  vizSelected pg' = [] /\
  previewMarked selectedClass pg' = [] /\
  previewMarked hoveredClass pg' = [] /\
  nodeIdCounter pg' = nodeIdCounter pg /\
  map datum (treeViz pg') = map datum (treeViz pg) /\
  identifiers (preview pg') = identifiers (preview pg) /\
  (vizSelected pg = [] -> previewMarked selectedClass pg = [] ->
   previewMarked hoveredClass pg = [] -> pg' = pg).
Proof.
  generalize (nodeIdOf k) as id. intros id V P pg'.
  assert (EL : elements (preview pg') = map unmarked (elements (preview pg))).
  { unfold pg'. rewrite highlightTreeNode_elements. apply firstMatchIn_none.
    intros e He. apply in_map_iff in He as (x & <- & Hx).
    specialize (P x Hx). destruct (byNodeId id (unmarked x)) eqn:B; auto.
    apply byNodeId_identifier in B. rewrite unmarked_identifier in B.
    apply byNodeId_identifier in B. congruence. }
  assert (TV : treeViz pg' = map (fun v => mkVizNode (datum v) false) (treeViz pg)).
  { unfold pg'. rewrite highlightTreeNode_treeViz. apply map_ext_in.
    intros v Hv. now rewrite (V v Hv). }
  repeat split.
  - unfold vizSelected. rewrite TV. now apply filter_map_none.
  - unfold previewMarked. rewrite EL. apply filter_map_none, unmarked_selected.
  - unfold previewMarked. rewrite EL. apply filter_map_none, unmarked_hovered.
  - rewrite TV, map_map. reflexivity.
  - unfold identifiers. rewrite EL, map_map. apply map_ext, unmarked_identifier.
  - intros Hv Hs Hh. unfold previewMarked in Hs, Hh.
    apply filter_nil_Forall in Hs. apply filter_nil_Forall in Hh.
    rewrite Forall_forall in Hs, Hh.
    unfold pg', highlightTreeNode, resetHTMLHighlights, resetTreeHighlights.
    cbn [preview treeViz nodeIdCounter].
    rewrite (forEachMatching_none _ _ (preview pg)) by exact Hs.
    rewrite (forEachMatching_none _ _ (preview pg)) by exact Hh.
    rewrite (withFirstMatch_none _ _ (preview pg)) by exact P.
    rewrite (vizSelected_none pg Hv).
    destruct pg as [c tv pv]. simpl in *. f_equal.
    rewrite <- (map_id tv) at 2. apply map_ext_in. intros v Hin.
    now rewrite (V v Hin).
Qed.

Lemma selecting_unmatched_id_clears_markers_witness :
  vizSelected (highlightTreeNode "node-9" blankPage) = [] /\
  previewMarked selectedClass (highlightTreeNode "node-9" blankPage) = [].
Proof.
  destruct (@selecting_unmatched_id_clears_markers 9 blankPage)
    as (Hv & Hs & _).
  - intros v H. destruct H.
  - intros e H. simpl in H.
    repeat (destruct H as [<-|H]; [reflexivity|]). contradiction.
  - split; [exact Hv | exact Hs].
Defined.

(** C7, counterexample.  With [div] ([node-3]) selected, selecting
    [node-9], which matches nothing on either surface, removes the marker
    from both surfaces: the highlight state has changed. *)
Lemma selecting_unmatched_id_is_not_a_noop :
  let pg := highlightTreeNode "node-3" (updateTree sampleParser divSpanMarkup blankPage) in
  forallb (fun v => negb (boundTo "node-9" v)) (treeViz pg) = true /\
  forallb (fun e => negb (byNodeId "node-9" e)) (elements (preview pg)) = true /\
  map (fun v => nodeId (datum v)) (vizSelected pg) = [Some "node-3"] /\
  map identifier (previewMarked selectedClass pg) = [Some "node-3"] /\
  vizSelected (highlightTreeNode "node-9" pg) = [] /\
  previewMarked selectedClass (highlightTreeNode "node-9" pg) = [] /\
  highlightTreeNode "node-9" pg <> pg.
Proof.
  repeat split; try reflexivity.
  intro H. apply (f_equal (fun p => length (vizSelected p))) in H.
  vm_compute in H. discriminate.
Qed.

Lemma firstMatchIn_at (sel : ElementData -> bool) (f : ElementData -> ElementData)
    (l1 l2 : list ElementData) (x : ElementData) :
  Forall (fun e => sel e = false) l1 -> sel x = true ->
  fst (firstMatchIn sel f (l1 ++ x :: l2) false) = l1 ++ f x :: l2.
Proof.
  intros H S. induction H as [|e r He _ IH]; simpl.
  - rewrite S. simpl. now rewrite firstMatchIn_found.
  - rewrite He. simpl.
    destruct (firstMatchIn sel f (r ++ x :: l2) false). simpl in *. now rewrite IH.
Qed.

Lemma find_at (sel : ElementData -> bool) (l1 l2 : list ElementData) (x : ElementData) :
  Forall (fun e => sel e = false) l1 -> sel x = true ->
  find sel (l1 ++ x :: l2) = Some x.
Proof.
  intros H S. induction H as [|e r He _ IH]; simpl.
  - now rewrite S.
  - now rewrite He.
Qed.

Lemma filter_nil_by_flags (A : Type) (q : A -> bool) (l l' : list A) :
  map q l = map q l' -> filter q l' = [] -> filter q l = [].
Proof.
  revert l'. induction l as [|x r IH]; intros [|y s] M F; simpl in *;
    try discriminate; auto.
  injection M as Mx Mr. rewrite Mx.
  destruct (q y); [discriminate|]. eauto.
Qed.

(** C8, as the code has it.  When some element of the preview carries
    [id], setting the hover on [id] marks the first such element and changes
    neither the selected markers of the preview nor the diagram; clearing
    the hover on [id] then leaves that element without the hover marker and
    no element hovered that was not hovered before.  Starting from a page
    on which nothing is hovered, nothing is hovered afterwards. *)
Theorem hover_then_clear (id : string) (pg : Page) :
  (exists e, In e (elements (preview pg)) /\ byNodeId id e = true) ->
  let hov := highlightHTMLSide id pg in
  let clr := unhighlightHTMLSide id hov in
  map (hasClass selectedClass) (elements (preview hov))
  = map (hasClass selectedClass) (elements (preview pg)) /\
  treeViz hov = treeViz pg /\
  (exists x, find (byNodeId id) (elements (preview hov)) = Some x /\
             hasClass hoveredClass x = true) /\
  (exists x, find (byNodeId id) (elements (preview clr)) = Some x /\
             hasClass hoveredClass x = false) /\
  (forall x, In x (previewMarked hoveredClass clr) -> In x (previewMarked hoveredClass pg)) /\
  (previewMarked hoveredClass pg = [] -> previewMarked hoveredClass clr = []).
Proof.
  intros (e0 & In0 & S0) hov clr.
  destruct (firstMatchIn_split (byNodeId id) (classListAdd hoveredClass)
              (elements (preview pg)))
    as [[N _]|(l1 & e & l2 & EL & N1 & Se & R)].
  { rewrite Forall_forall in N. rewrite (N e0 In0) in S0. discriminate. }
  assert (Sa : byNodeId id (classListAdd hoveredClass e) = true).
  { apply byNodeId_identifier. rewrite identifier_classListAdd.
    now apply byNodeId_identifier. }
  assert (Eh : elements (preview hov) = l1 ++ classListAdd hoveredClass e :: l2).
  { unfold hov. now rewrite highlightHTMLSide_elements. }
  assert (Ec : elements (preview clr)
               = l1 ++ classListRemove hoveredClass (classListAdd hoveredClass e) :: l2).
  { unfold clr. rewrite unhighlightHTMLSide_elements, Eh. now apply firstMatchIn_at. }
  assert (M : forall x, In x (previewMarked hoveredClass clr) ->
                        In x (previewMarked hoveredClass pg)).
  { unfold previewMarked. rewrite Ec, EL. intros x Hx.
    apply filter_In in Hx as [Hx Hq]. apply filter_In. split; auto.
    apply in_app_or in Hx as [Hx|[<-|Hx]].
    - apply in_or_app. now left.
    - now rewrite hasClass_remove_same in Hq.
    - apply in_or_app. right. now right. }
  repeat split; auto.
  - rewrite Eh, EL, !map_app. simpl. f_equal. f_equal.
    apply hasClass_add_other. discriminate.
  - exists (classListAdd hoveredClass e). rewrite Eh. split.
    + now apply find_at.
    + apply hasClass_add_same.
  - exists (classListRemove hoveredClass (classListAdd hoveredClass e)).
    rewrite Ec. split.
    + apply find_at; [exact N1 | exact Sa].
    + apply hasClass_remove_same.
  - intro H. destruct (previewMarked hoveredClass clr) as [|x r] eqn:F; auto.
    specialize (M x (or_introl eq_refl)). rewrite H in M. destruct M.
Qed.

Lemma hover_then_clear_witness :
  let pg := updateTree sampleParser divSpanMarkup blankPage in
  previewMarked hoveredClass
    (unhighlightHTMLSide "node-4" (highlightHTMLSide "node-4" pg)) = [].
Proof.
  intro pg.
  assert (H : exists e, In e (elements (preview pg)) /\ byNodeId "node-4" e = true).
  { exists (mkElementData "SPAN" [("data-node-id", "node-4")] []).
    split; [|reflexivity]. simpl. do 4 right. left. reflexivity. }
  destruct (@hover_then_clear "node-4" pg H) as (_ & _ & _ & _ & _ & Hn).
  apply Hn. reflexivity.
Defined.

(** C8, counterexample.  With the hover marker on [div] ([node-3]),
    setting and then clearing the hover on [span] ([node-4]), which is on
    the preview, leaves the marker on [div]. *)
Lemma hover_elsewhere_survives :
  let pg := highlightHTMLSide "node-3" (updateTree sampleParser divSpanMarkup blankPage) in
  existsb (byNodeId "node-4") (elements (preview pg)) = true /\
  map identifier
    (previewMarked hoveredClass
       (unhighlightHTMLSide "node-4" (highlightHTMLSide "node-4" pg)))
  = [Some "node-3"].
Proof. split; reflexivity. Qed.




Lemma highlightTreeNode_distinct (id : string) (pg : Page) :
  distinctGroups pg -> distinctGroups (highlightTreeNode id pg).
Proof.
  unfold distinctGroups. intro N.
  rewrite <- (map_map datum nodeId), highlightTreeNode_data, map_map. exact N.
Qed.

Lemma highlightTreeNode_single (id : string) (pg : Page) :
  distinctGroups pg -> singleSelection id (highlightTreeNode id pg).
Proof.
  intro N.
  assert (V : forall v, In v (vizSelected (highlightTreeNode id pg)) ->
                        nodeId (datum v) = Some id).
  { unfold vizSelected. rewrite highlightTreeNode_treeViz. intros v Hv.
    apply filter_In in Hv as [Hv Hq]. apply in_map_iff in Hv as (w & <- & _).
    simpl in *. now apply boundTo_nodeId. }
  assert (V1 : length (vizSelected (highlightTreeNode id pg)) <= 1).
  { apply (@at_most_one_key _ _ (fun v => nodeId (datum v)) highlightedNode (Some id)).
    - now apply highlightTreeNode_distinct.
    - intros v Hv Hq. apply V. unfold vizSelected. apply filter_In. now split. }
  assert (Clean : Forall (fun x => hasClass selectedClass x = false)
                    (map unmarked (elements (preview pg)))).
  { apply Forall_forall. intros x Hx. apply in_map_iff in Hx as (y & <- & _).
    apply unmarked_selected. }
  unfold singleSelection, previewMarked. rewrite highlightTreeNode_elements.
  destruct (firstMatchIn_split (byNodeId id) (classListAdd selectedClass)
              (map unmarked (elements (preview pg))))
    as [[_ ->]|(l1 & e & l2 & EL & _ & Se & ->)].
  - rewrite (filter_none _ Clean). repeat split; simpl; auto; contradiction.
  - rewrite EL in Clean. apply Forall_app in Clean as [C1 C2].
    inversion C2 as [|? ? _ C3]; subst.
    rewrite filter_app. simpl.
    rewrite (filter_none _ C1), (filter_none _ C3), hasClass_add_same. simpl.
    repeat split; auto.
    intros x [<-|[]]. rewrite identifier_classListAdd.
    now apply byNodeId_identifier.
Qed.




(** * Further properties of the code *)

(** ** The tagger *)

Lemma setAttribute_twice (k v w : string) (l : list (string * string)) :
  setAttribute k v (setAttribute k w l) = setAttribute k v l.
Proof.
  induction l as [|[k' v'] l IH]; simpl.
  - now rewrite String.eqb_refl.
  - destruct (String.eqb k' k) eqn:E; simpl; rewrite E; congruence.
Qed.

Lemma setAttribute_others (k v : string) (l : list (string * string)) :
  filter (fun kv => negb (String.eqb (fst kv) k)) (setAttribute k v l)
  = filter (fun kv => negb (String.eqb (fst kv) k)) l.
Proof.
  induction l as [|[k' v'] l IH]; simpl.
  - now rewrite String.eqb_refl.
  - destruct (String.eqb k' k) eqn:E; simpl; rewrite E; simpl; congruence.
Qed.

Lemma getAttribute_setAttribute_other (k k' v : string) (l : list (string * string)) :
  k <> k' -> getAttribute k' (setAttribute k v l) = getAttribute k' l.
Proof.
  intro D. induction l as [|[a b] l IH]; simpl.
  - apply String.eqb_neq in D. now rewrite D.
  - destruct (String.eqb a k) eqn:E; simpl.
    + apply String.eqb_eq in E. subst a.
      apply String.eqb_neq in D. now rewrite D.
    + now rewrite IH.
Qed.

Lemma assignIds_retag (n : Node) (c0 c : nat) :
  assignIdsToElements (fst (assignIdsToElements n c0)) c = assignIdsToElements n c.
Proof.
  revert c0 c.
  induction n as [e kids IH|d|d|kids IH] using Node_nested_ind; intros c0 c;
    simpl; auto.
  assert (L : forall a b,
             forEachState assignIdsToElements
               (fst (forEachState assignIdsToElements kids a)) b
             = forEachState assignIdsToElements kids b).
  { clear e c0 c. induction IH as [|k r Hk _ IHr]; intros a b; simpl; auto.
    specialize (Hk a). destruct (assignIdsToElements k a) as [k' a1]. simpl in Hk.
    specialize (IHr a1). destruct (forEachState assignIdsToElements r a1) as [r' a2].
    simpl in *. rewrite Hk. destruct (assignIdsToElements k b) as [k2 b1].
    now rewrite IHr. }
  specialize (L (S c0) (S c)).
  destruct (forEachState assignIdsToElements kids (S c0)) as [kids' c']. simpl in *.
  rewrite L. destruct (forEachState assignIdsToElements kids (S c)).
  unfold withAttribute; simpl. now rewrite setAttribute_twice.
Qed.

Lemma setAttribute_blankIdValue (v : string) (l : list (string * string)) :
  setAttribute idAttr v (blankIdValue l) = setAttribute idAttr v l.
Proof.
  induction l as [|[k w] l IH]; simpl; auto.
  destruct (String.eqb k idAttr) eqn:E; simpl; rewrite E; congruence.
Qed.

Lemma assignIds_blankIdentifiers (n : Node) :
  forall c, assignIdsToElements (blankIdentifiers n) c = assignIdsToElements n c.
Proof.
  induction n as [e kids IH|d|d|kids IH] using Node_nested_ind; intro c;
    simpl; auto.
  assert (L : forall a,
             forEachState assignIdsToElements (map blankIdentifiers kids) a
             = forEachState assignIdsToElements kids a).
  { clear e c. induction IH as [|k r Hk _ IHr]; intro a; simpl; auto.
    rewrite Hk. destruct (assignIdsToElements k a) as [k' a1]. now rewrite IHr. }
  rewrite L. destruct (forEachState assignIdsToElements kids (S c)).
  unfold withAttribute, withBlankId. simpl. now rewrite setAttribute_blankIdValue.
Qed.

(** X1.  The identifiers a tree carries before the pass, whether an
    earlier pass left them or the markup had [data-node-id] attributes of
    its own, never influence the result: two trees that differ only in the
    values of the identifier attributes they have are tagged alike, and
    tagging a tagged tree again gives what tagging the tree as it was before
    gives. *)
Theorem retagging_overwrites (n : Node) (c : nat) :
  (forall n', blankIdentifiers n' = blankIdentifiers n ->
              assignIdsToElements n' c = assignIdsToElements n c) /\
  (forall c0, assignIdsToElements (fst (assignIdsToElements n c0)) c
              = assignIdsToElements n c).
Proof.
  split.
  - intros n' H. rewrite <- (assignIds_blankIdentifiers n'), H.
    apply assignIds_blankIdentifiers.
  - intro c0. apply assignIds_retag.
Qed.

Lemma retagging_overwrites_witness :
  assignIdsToElements (Element (mkElementData "P" [("data-node-id", "mine")] []) []) 7
  = assignIdsToElements (Element (mkElementData "P" [("data-node-id", "node-0")] []) []) 7.
Proof.
  destruct (retagging_overwrites
              (Element (mkElementData "P" [("data-node-id", "node-0")] []) []) 7)
    as [H _].
  apply H. reflexivity.
Defined.

Lemma descendantText_mapElements (g : ElementData -> ElementData) (n : Node) :
  descendantText (mapElements g n) = descendantText n.
Proof.
  induction n as [e kids IH|d|d|kids IH] using Node_nested_ind; simpl; auto.
  - f_equal. rewrite map_map. induction IH as [|k r Hk _ IHr]; simpl; congruence.
  - f_equal. rewrite map_map. induction IH as [|k r Hk _ IHr]; simpl; congruence.
Qed.

Lemma assignIds_eraseIdentifiers (n : Node) :
  forall c, eraseIdentifiers (fst (assignIdsToElements n c)) = eraseIdentifiers n.
Proof.
  unfold eraseIdentifiers.
  induction n as [e kids IH|d|d|kids IH] using Node_nested_ind; intro c;
    simpl; auto.
  assert (L : forall a,
             map (mapElements withoutIdentifier)
               (fst (forEachState assignIdsToElements kids a))
             = map (mapElements withoutIdentifier) kids).
  { clear e c. induction IH as [|k r Hk _ IHr]; intro a; simpl; auto.
    specialize (Hk a). destruct (assignIdsToElements k a) as [k' a1].
    specialize (IHr a1). destruct (forEachState assignIdsToElements r a1) as [r' a2].
    simpl in *. now rewrite Hk, IHr. }
  specialize (L (S c)).
  destruct (forEachState assignIdsToElements kids (S c)) as [kids' c'].
  simpl in *. rewrite L. f_equal.
  unfold withoutIdentifier, withAttribute. simpl. f_equal.
  apply setAttribute_others.
Qed.

(** X2.  The tagger changes the [data-node-id] attribute of elements and
    nothing else: with that attribute taken off every element the tagged
    tree is the tree it was given, so tag names, class lists, the other
    attributes, text and comment nodes and the shape are as before; the
    text of the subtree is unchanged, and every other attribute of every
    element reads as before. *)
Theorem tagger_touches_only_the_identifier (n : Node) (c : nat) :
  let tagged := fst (assignIdsToElements n c) in
  eraseIdentifiers tagged = eraseIdentifiers n /\
  descendantText tagged = descendantText n /\
  forall k, k <> idAttr ->
    map (fun e => getAttribute k (attributes e)) (elements tagged)
    = map (fun e => getAttribute k (attributes e)) (elements n).
Proof.
  intro tagged. split; [apply assignIds_eraseIdentifiers|]. split.
  - rewrite <- (descendantText_mapElements withoutIdentifier tagged).
    fold (eraseIdentifiers tagged). unfold tagged.
    rewrite assignIds_eraseIdentifiers. apply descendantText_mapElements.
  - intros k D. apply assignIds_keeps. intros v e. simpl.
    apply getAttribute_setAttribute_other. congruence.
Qed.

(** X3.  For any node and any value [c] of the counter from which the pass
    stays within the range where a JavaScript number counts exactly: when
    the tagged node is extracted, the Tree Nodes in pre-order carry the identifiers
    [node-c], [node-(c+1)], ... without gap or repetition, none is without
    identifier, and the counter has advanced by exactly the number of Tree
    Nodes; when nothing is extracted the node and the counter are
    untouched. *)
Theorem counter_counts_extracted_nodes (n : Node) (c : nat) :
  (N.of_nat (c + length (elements n)) <= counterLimit)%N ->
  let pass := assignIdsToElements n c in
  match convertToTree (fst pass) with
  | Some t =>
      map nodeId (treeNodes t) = map (fun k => Some (nodeIdOf k)) (seq c (treeSize t)) /\
      NoDup (map nodeId (treeNodes t)) /\
      (forall p, In p (treeNodes t) -> nodeId p <> None) /\
      snd pass = c + treeSize t
  | None => pass = (n, c)
  end.
Proof.
  intros _ pass. destruct (convertToTree (fst pass)) as [t|] eqn:E.
  - destruct (@assignIds_numberedFrom _ _ _ E) as [N S].
    pose proof (@numberedFrom_ids t c N) as I. repeat split; auto.
    + rewrite I. apply freshIds_NoDup.
    + intros p Hp Hn. apply (in_map nodeId) in Hp. rewrite I, Hn in Hp.
      apply in_map_iff in Hp as (k & Hk & _). discriminate.
  - unfold pass in *. destruct n; simpl in *; auto.
    destruct (forEachState assignIdsToElements childNodes (S c)). discriminate.
Qed.

Lemma counter_counts_extracted_nodes_witness :
  snd (assignIdsToElements divSpanDocument 40) = 45.
Proof.
  assert (B : (N.of_nat (40 + length (elements divSpanDocument)) <= counterLimit)%N)
    by (vm_compute; discriminate).
  pose proof (@counter_counts_extracted_nodes divSpanDocument 40 B) as H.
  simpl in H. destruct H as (_ & _ & _ & H). exact H.
Defined.

(** X4.  Identifiers can be told apart and decoded: two counter values
    give the same identifier only when they are equal, the number read back
    from [node-<n>] is [n], and the selector built for [node-b] matches an
    element tagged [node-a] exactly when [a] is [b]. *)
Theorem identifier_encoding_is_injective (a b : nat) (e : ElementData) :
  (nodeIdOf a = nodeIdOf b -> a = b) /\
  numericPart (Some (nodeIdOf a)) = Some a /\
  byNodeId (nodeIdOf b) (withAttribute idAttr (nodeIdOf a) e) = Nat.eqb a b.
Proof.
  split; [apply nodeIdOf_inj|]. split; [apply numericPart_nodeIdOf|].
  unfold byNodeId, withAttribute. cbn [attributes].
  rewrite getAttribute_setAttribute.
  destruct (Nat.eqb a b) eqn:E.
  - apply Nat.eqb_eq in E. subst. apply String.eqb_refl.
  - apply String.eqb_neq. intro H. apply nodeIdOf_inj in H.
    apply Nat.eqb_neq in E. contradiction.
Qed.

(** ** The diagram *)

Lemma generations_links (fuel : nat) :
  forall l, list_sum (map treeSize l) <= fuel ->
            generations fuel l = l ++ map snd (generationLinks fuel l).
Proof.
  induction fuel as [|f IH]; intros l H.
  - destruct l as [|t r]; simpl in *; auto. pose proof (treeSize_pos t). lia.
  - destruct l as [|t r]; [reflexivity|].
    change (generations (S f) (t :: r))
      with ((t :: r) ++ generations f (flat_map children (t :: r))).
    change (generationLinks (S f) (t :: r))
      with (flat_map (fun p => map (pair p) (children p)) (t :: r)
              ++ generationLinks f (flat_map children (t :: r))).
    assert (E : forall l, list_sum (map treeSize l)
                          = length l + list_sum (map treeSize (flat_map children l))).
    { clear. induction l as [|x l IH]; simpl; auto.
      rewrite map_app, list_sum_app, IH. destruct x; simpl. lia. }
    rewrite (E (t :: r)) in H. simpl length in H.
    rewrite IH by lia. rewrite map_app. f_equal. f_equal.
    generalize (t :: r) as l. clear.
    induction l as [|x l IH]; simpl; auto.
    rewrite map_app, map_map, <- IH. simpl. now rewrite map_id.
Qed.

Lemma generationLinks_edges (fuel : nat) :
  forall l, Forall (fun e => In (snd e) (children (fst e))) (generationLinks fuel l).
Proof.
  induction fuel as [|f IH]; intro l; simpl; auto.
  destruct l as [|t r]; auto.
  apply Forall_app. split; auto.
  apply Forall_forall. intros [p k] H. apply in_flat_map in H as (q & _ & H).
  apply in_map_iff in H as (x & E & Hx). injection E as <- <-. exact Hx.
Qed.

Lemma generationLinks_sources (fuel : nat) :
  forall l, Forall (fun e => In (fst e) (generations fuel l)) (generationLinks fuel l).
Proof.
  induction fuel as [|f IH]; intro l; simpl; auto.
  destruct l as [|t r]; auto.
  apply Forall_app. split.
  - apply Forall_forall. intros [p k] H. apply in_flat_map in H as (q & Hq & H).
    apply in_map_iff in H as (x & E & _). injection E as <- <-.
    simpl. destruct Hq as [<-|Hq]; auto. right. apply in_or_app. now left.
  - eapply Forall_impl; [|apply IH]. intros e H. simpl.
    right. apply in_or_app. now right.
Qed.

(** X5.  [drawTree] puts one group into the diagram for every Tree Node
    of the tree it is given, each exactly once, the root first; no group is
    selected, and the preview and the counter are left alone. *)
Theorem drawTree_draws_every_node_once (rootData : TreeNode) (pg : Page) :
  let pg' := drawTree rootData pg in
  Permutation (map datum (treeViz pg')) (treeNodes rootData) /\
  length (treeViz pg') = treeSize rootData /\
  hd_error (treeViz pg') = Some (mkVizNode rootData false) /\
  vizSelected pg' = [] /\
  preview pg' = preview pg /\
  nodeIdCounter pg' = nodeIdCounter pg.
Proof.
  intro pg'. unfold pg', drawTree. cbn [treeViz preview nodeIdCounter].
  assert (P : Permutation (descendants rootData) (treeNodes rootData))
    by apply descendants_treeNodes.
  repeat split.
  - rewrite map_map. simpl. now rewrite map_id.
  - rewrite length_map, treeSize_treeNodes. now apply Permutation_length.
  - unfold descendants. destruct rootData; reflexivity.
  - unfold vizSelected. cbn [treeViz]. now apply filter_map_none.
Qed.

(** X6.  The lines of the diagram: there is one line for every group
    but the root's, in the order of the groups, ending at that group's
    node and starting at a node that has it among its children and has a
    group of its own; so there is one line fewer than there are groups. *)
Theorem links_join_parents_to_children (rootData : TreeNode) :
  (forall pg, map datum (treeViz (drawTree rootData pg))
              = rootData :: map snd (links rootData)) /\
  descendants rootData = rootData :: map snd (links rootData) /\
  S (length (links rootData)) = treeSize rootData /\
  Forall (fun l => In (snd l) (children (fst l)) /\ In (fst l) (descendants rootData))
    (links rootData).
Proof.
  assert (D : descendants rootData = rootData :: map snd (links rootData)).
  { unfold descendants, links. rewrite generations_links; simpl; auto; lia. }
  split.
  { intro pg. unfold drawTree. cbn [treeViz]. rewrite map_map. simpl.
    now rewrite map_id. }
  split; [exact D|]. split.
  - rewrite treeSize_treeNodes, <- (Permutation_length (descendants_treeNodes rootData)).
    rewrite D. simpl. now rewrite length_map.
  - apply Forall_forall. intros l Hl. split.
    + pose proof (generationLinks_edges (treeSize rootData) [rootData]) as F.
      rewrite Forall_forall in F. now apply F.
    + pose proof (generationLinks_sources (treeSize rootData) [rootData]) as F.
      rewrite Forall_forall in F. now apply F.
Qed.

(** ** Text and tooltips *)

Lemma trimStart_first (s : string) (c : ascii) :
  firstChar (JsString.trimStart s) = Some c -> JsString.isWhiteSpace c = false.
Proof.
  induction s as [|a r IH]; simpl; [discriminate|].
  destruct (JsString.isWhiteSpace a) eqn:E; auto.
  simpl. intro H. injection H as <-. exact E.
Qed.

Lemma trimStart_empty (s : string) :
  JsString.trimStart s = EmptyString <-> allWhiteSpace s = true.
Proof.
  induction s as [|a r IH]; simpl; [tauto|].
  destruct (JsString.isWhiteSpace a); simpl; auto.
  split; discriminate.
Qed.

Lemma trimEnd_last (s : string) (c : ascii) :
  lastChar (JsString.trimEnd s) = Some c -> JsString.isWhiteSpace c = false.
Proof.
  induction s as [|a r IH]; simpl; [discriminate|].
  destruct (JsString.trimEnd r) as [|b r'] eqn:E.
  - destruct (JsString.isWhiteSpace a) eqn:W; simpl; [discriminate|].
    intro H. injection H as <-. exact W.
  - intro H. apply IH. exact H.
Qed.

Lemma trimEnd_first (s : string) (c : ascii) :
  firstChar s = Some c -> JsString.isWhiteSpace c = false ->
  firstChar (JsString.trimEnd s) = Some c.
Proof.
  destruct s as [|a r]; simpl; [discriminate|].
  intros H W. injection H as ->.
  destruct (JsString.trimEnd r); [now rewrite W|reflexivity].
Qed.

Lemma trim_first (s : string) (c : ascii) :
  firstChar (JsString.trim s) = Some c -> JsString.isWhiteSpace c = false.
Proof.
  unfold JsString.trim. intro H.
  destruct (JsString.trimStart s) as [|a r] eqn:E; [discriminate|].
  assert (W : JsString.isWhiteSpace a = false)
    by (apply (trimStart_first s); now rewrite E).
  rewrite (@trimEnd_first (String a r) a eq_refl W) in H. now injection H as <-.
Qed.

Lemma trim_empty (s : string) :
  JsString.trim s = EmptyString <-> allWhiteSpace s = true.
Proof.
  rewrite <- trimStart_empty. unfold JsString.trim. split.
  - intro H. destruct (JsString.trimStart s) as [|a r] eqn:E; auto.
    assert (W : JsString.isWhiteSpace a = false)
      by (apply (trimStart_first s); now rewrite E).
    pose proof (@trimEnd_first (String a r) a eq_refl W) as F.
    rewrite H in F. discriminate.
  - intros ->. reflexivity.
Qed.

(** X7.  The tooltip of the group drawn for an element whose tag name and
    subtree text are ASCII: when the text of the subtree is empty or white
    space only, the tooltip is the lower-cased
    tag name alone; otherwise it is the name, the separator [ : ] and the
    text, and that text neither begins nor ends with white space. *)
Theorem tooltip_of_an_element (e : ElementData) (kids : list Node) :
  isAscii (tagName e) = true ->
  isAscii (descendantText (Element e kids)) = true ->
  exists t,
    convertToTree (Element e kids) = Some t /\
    labelText t = JsString.toLowerCase (tagName e) /\
    (allWhiteSpace (descendantText (Element e kids)) = true ->
     titleText t = JsString.toLowerCase (tagName e)) /\
    (allWhiteSpace (descendantText (Element e kids)) = false ->
     titleText t = (JsString.toLowerCase (tagName e) ++ " : " ++ textContent t)%string /\
     (exists c, firstChar (textContent t) = Some c /\ JsString.isWhiteSpace c = false) /\
     (exists c, lastChar (textContent t) = Some c /\ JsString.isWhiteSpace c = false)).
Proof.
  intros _ _. eexists. split; [reflexivity|]. split; [reflexivity|].
  unfold titleText. cbn [textContent name].
  set (txt := JsString.trim (nodeTextContent (Element e kids))).
  assert (T : txt = JsString.trim (descendantText (Element e kids))) by reflexivity.
  split.
  - intro W. apply trim_empty in W. rewrite <- T in W. now rewrite W.
  - intro W. destruct txt as [|a r] eqn:E.
    + symmetry in T. apply trim_empty in T. congruence.
    + split; [reflexivity|]. split.
      * exists a. split; auto. apply (trim_first (descendantText (Element e kids))).
        now rewrite <- T.
      * destruct (lastChar (String a r)) as [c|] eqn:L.
        -- exists c. split; auto. rewrite T in L. unfold JsString.trim in L.
           now apply trimEnd_last in L.
        -- exfalso. clear - L. revert a L. induction r as [|b r IH]; intros a L;
             simpl in L; [discriminate|]. now apply (IH b).
Qed.

(** ** Changes made to the elements of a document *)

Lemma mapElements_elements (g : ElementData -> ElementData) (n : Node) :
  elements (mapElements g n) = map g (elements n).
Proof.
  induction n as [e kids IH|d|d|kids IH] using Node_nested_ind; simpl; auto.
  - f_equal. induction IH as [|k r Hk _ IHr]; simpl; auto.
    now rewrite map_app, Hk, IHr.
  - induction IH as [|k r Hk _ IHr]; simpl; auto.
    now rewrite map_app, Hk, IHr.
Qed.

Lemma forEachMatching_mapElements (sel : ElementData -> bool)
    (f : ElementData -> ElementData) (n : Node) :
  forEachMatching sel f n = mapElements (fun e => if sel e then f e else e) n.
Proof.
  induction n as [e kids IH|d|d|kids IH] using Node_nested_ind; simpl; auto.
  - f_equal. induction IH as [|k r Hk _ IHr]; simpl; congruence.
  - f_equal. induction IH as [|k r Hk _ IHr]; simpl; congruence.
Qed.

Lemma mapElements_compose (g h : ElementData -> ElementData) (n : Node) :
  mapElements g (mapElements h n) = mapElements (fun e => g (h e)) n.
Proof.
  induction n as [e kids IH|d|d|kids IH] using Node_nested_ind; simpl; auto.
  - f_equal. rewrite map_map. induction IH as [|k r Hk _ IHr]; simpl; congruence.
  - f_equal. rewrite map_map. induction IH as [|k r Hk _ IHr]; simpl; congruence.
Qed.

Lemma mapElements_ext (g h : ElementData -> ElementData) (n : Node) :
  (forall e, g e = h e) -> mapElements g n = mapElements h n.
Proof.
  intro E.
  induction n as [e kids IH|d|d|kids IH] using Node_nested_ind; simpl; auto.
  - rewrite E. f_equal. induction IH as [|k r Hk _ IHr]; simpl; congruence.
  - f_equal. induction IH as [|k r Hk _ IHr]; simpl; congruence.
Qed.

Lemma mapElements_fixed (g : ElementData -> ElementData) (n : Node) :
  (forall e, In e (elements n) -> g e = e) -> mapElements g n = n.
Proof.
  induction n as [e kids IH|d|d|kids IH] using Node_nested_ind; intro H;
    simpl; auto.
  - rewrite (H e (or_introl eq_refl)). f_equal.
    assert (K : forall x, In x (flat_map elements kids) -> g x = x)
      by (intros x Hx; apply H; now right).
    clear H. induction IH as [|k r Hk _ IHr]; simpl in *; auto.
    rewrite Hk, IHr; auto; intros x Hx; apply K, in_or_app; auto.
  - f_equal. simpl in H.
    induction IH as [|k r Hk _ IHr]; simpl in *; auto.
    rewrite Hk, IHr; auto; intros x Hx; apply H, in_or_app; auto.
Qed.

Section FirstMatch.
Variable sel : ElementData -> bool.

Lemma withFirstMatch_found (f : ElementData -> ElementData) (n : Node) :
  withFirstMatch sel f n true = (n, true).
Proof.
  induction n as [e kids IH|d|d|kids IH] using Node_nested_ind; simpl; auto.
  - assert (L : forEachState (withFirstMatch sel f) kids true = (kids, true)).
    { induction IH as [|k r Hk _ IHr]; simpl; auto. now rewrite Hk, IHr. }
    now rewrite L.
  - assert (L : forEachState (withFirstMatch sel f) kids true = (kids, true)).
    { induction IH as [|k r Hk _ IHr]; simpl; auto. now rewrite Hk, IHr. }
    now rewrite L.
Qed.

Lemma firstMatchIn_flag (f : ElementData -> ElementData) (l : list ElementData) (b : bool) :
  snd (firstMatchIn sel f l b) = b || existsb sel l.
Proof.
  revert b. induction l as [|e r IH]; intro b; simpl.
  - now rewrite orb_false_r.
  - specialize (IH (b || negb b && sel e)).
    destruct (firstMatchIn sel f r (b || negb b && sel e)). simpl in *.
    rewrite IH. destruct b, (sel e); reflexivity.
Qed.

Lemma withFirstMatch_flag (f : ElementData -> ElementData) (n : Node) (b : bool) :
  snd (withFirstMatch sel f n b) = b || existsb sel (elements n).
Proof.
  rewrite <- (firstMatchIn_flag f). now rewrite <- withFirstMatch_elements.
Qed.

(** A change that [g] forgets is not seen after [g]. *)
Lemma mapElements_withFirstMatch (g f : ElementData -> ElementData) (n : Node) :
  (forall e, g (f e) = g e) ->
  forall b, mapElements g (fst (withFirstMatch sel f n b)) = mapElements g n.
Proof.
  intro G.
  induction n as [e kids IH|d|d|kids IH] using Node_nested_ind; intro b;
    simpl; auto.
  - assert (L : forall a, map (mapElements g)
                            (fst (forEachState (withFirstMatch sel f) kids a))
                          = map (mapElements g) kids).
    { clear e b. induction IH as [|k r Hk _ IHr]; intro a; simpl; auto.
      specialize (Hk a). destruct (withFirstMatch sel f k a) as [k' a1].
      specialize (IHr a1).
      destruct (forEachState (withFirstMatch sel f) r a1) as [r' a2].
      simpl in *. now rewrite Hk, IHr. }
    specialize (L (b || negb b && sel e)).
    destruct (forEachState (withFirstMatch sel f) kids (b || negb b && sel e)).
    simpl in *. rewrite L. f_equal. destruct (negb b && sel e); auto.
  - assert (L : forall a, map (mapElements g)
                            (fst (forEachState (withFirstMatch sel f) kids a))
                          = map (mapElements g) kids).
    { clear b. induction IH as [|k r Hk _ IHr]; intro a; simpl; auto.
      specialize (Hk a). destruct (withFirstMatch sel f k a) as [k' a1].
      specialize (IHr a1).
      destruct (forEachState (withFirstMatch sel f) r a1) as [r' a2].
      simpl in *. now rewrite Hk, IHr. }
    specialize (L b).
    destruct (forEachState (withFirstMatch sel f) kids b).
    simpl in *. now rewrite L.
Qed.

(** Two changes of the first match, one after the other, are one change,
    when the first leaves the selector as it found it. *)
Lemma withFirstMatch_compose (f1 f2 : ElementData -> ElementData) (n : Node) :
  (forall e, sel (f1 e) = sel e) ->
  forall b, withFirstMatch sel f2 (fst (withFirstMatch sel f1 n b)) b
            = withFirstMatch sel (fun e => f2 (f1 e)) n b.
Proof.
  intro S.
  assert (K : forall kids,
             Forall (fun n => forall b,
                       withFirstMatch sel f2 (fst (withFirstMatch sel f1 n b)) b
                       = withFirstMatch sel (fun e => f2 (f1 e)) n b) kids ->
             forall a,
               forEachState (withFirstMatch sel f2)
                 (fst (forEachState (withFirstMatch sel f1) kids a)) a
               = forEachState (withFirstMatch sel (fun e => f2 (f1 e))) kids a).
  { induction 1 as [|k r Hk _ IHr]; intro a; simpl; auto.
    specialize (Hk a).
    pose proof (withFirstMatch_flag f1 k a) as F1.
    pose proof (withFirstMatch_flag (fun e => f2 (f1 e)) k a) as F2.
    destruct (withFirstMatch sel f1 k a) as [k' a1]. simpl in *.
    specialize (IHr a1).
    destruct (forEachState (withFirstMatch sel f1) r a1) as [r' a2]. simpl in *.
    rewrite Hk.
    destruct (withFirstMatch sel (fun e => f2 (f1 e)) k a) as [k2 a3]. simpl in *.
    assert (E : a3 = a1) by congruence. rewrite E. now rewrite IHr. }
  induction n as [e kids IH|d|d|kids IH] using Node_nested_ind; intro b;
    simpl; auto.
  - specialize (K kids IH (b || negb b && sel e)).
    destruct (forEachState (withFirstMatch sel f1) kids (b || negb b && sel e))
      as [kids' b1]. simpl in *.
    assert (E : sel (if negb b && sel e then f1 e else e) = sel e)
      by (destruct (negb b && sel e); auto).
    rewrite E, K.
    destruct (forEachState (withFirstMatch sel (fun x => f2 (f1 x))) kids
                (b || negb b && sel e)).
    f_equal. f_equal. destruct (negb b && sel e); reflexivity.
  - specialize (K kids IH b).
    destruct (forEachState (withFirstMatch sel f1) kids b) as [kids' b1].
    simpl in *. rewrite K.
    now destruct (forEachState (withFirstMatch sel (fun x => f2 (f1 x))) kids b).
Qed.

(** A change that leaves the first match as it is leaves the document as
    it is. *)
Lemma withFirstMatch_fixed (h : ElementData -> ElementData) (n : Node) :
  forall b,
    (b = false -> forall e, find sel (elements n) = Some e -> h e = e) ->
    fst (withFirstMatch sel h n b) = n.
Proof.
  assert (F : forall l1 l2, find sel (l1 ++ l2)
                            = match find sel l1 with
                              | Some x => Some x
                              | None => find sel l2
                              end).
  { induction l1 as [|x r IH]; intro l2; simpl; auto. destruct (sel x); auto. }
  assert (N : forall l, find sel l = None -> existsb sel l = false).
  { induction l as [|x r IH]; simpl; auto. destruct (sel x); [discriminate|auto]. }
  assert (Y : forall l x, find sel l = Some x -> existsb sel l = true).
  { induction l as [|y r IH]; simpl; [discriminate|]. intros x.
    destruct (sel y); auto. intro H. simpl. eauto. }
  assert (K : forall kids,
             Forall (fun n => forall b,
                       (b = false -> forall e, find sel (elements n) = Some e -> h e = e) ->
                       fst (withFirstMatch sel h n b) = n) kids ->
             forall b,
               (b = false -> forall e, find sel (flat_map elements kids) = Some e -> h e = e) ->
               fst (forEachState (withFirstMatch sel h) kids b) = kids).
  { induction 1 as [|k r Hk _ IHr]; intros b H; simpl in *; auto.
    pose proof (withFirstMatch_flag h k b) as Fl.
    assert (Ek : fst (withFirstMatch sel h k b) = k).
    { apply Hk. intros -> e He. apply (H eq_refl). rewrite F, He. reflexivity. }
    destruct (withFirstMatch sel h k b) as [k' b1]. simpl in *. subst k'.
    assert (Er : fst (forEachState (withFirstMatch sel h) r b1) = r).
    { apply IHr. intros -> e He. destruct b; [discriminate|]. simpl in Fl.
      symmetry in Fl. destruct (find sel (elements k)) as [x|] eqn:Fk.
      - apply Y in Fk. congruence.
      - apply (H eq_refl). rewrite F, Fk. exact He. }
    destruct (forEachState (withFirstMatch sel h) r b1). simpl in *. now subst. }
  induction n as [e kids IH|d|d|kids IH] using Node_nested_ind; intros b H;
    simpl; auto.
  - assert (Ek : fst (forEachState (withFirstMatch sel h) kids (b || negb b && sel e))
                 = kids).
    { apply (K kids IH). intros Hb x Hx. apply orb_false_iff in Hb as [-> Hb].
      simpl in Hb. apply (H eq_refl). simpl. now rewrite Hb. }
    assert (Ee : (if negb b && sel e then h e else e) = e).
    { destruct b; simpl; auto. destruct (sel e) eqn:Se; auto.
      apply (H eq_refl). simpl. now rewrite Se. }
    destruct (forEachState (withFirstMatch sel h) kids (b || negb b && sel e)).
    simpl in *. now rewrite Ee, Ek.
  - specialize (K kids IH b H).
    destruct (forEachState (withFirstMatch sel h) kids b). simpl in *. now subst.
Qed.
End FirstMatch.

Lemma withFirstMatch_ext (sel : ElementData -> bool) (f g : ElementData -> ElementData)
    (n : Node) :
  (forall e, f e = g e) ->
  forall b, withFirstMatch sel f n b = withFirstMatch sel g n b.
Proof.
  intro E.
  induction n as [e kids IH|d|d|kids IH] using Node_nested_ind; intro b;
    simpl; auto.
  - assert (L : forall a, forEachState (withFirstMatch sel f) kids a
                          = forEachState (withFirstMatch sel g) kids a).
    { clear e b. induction IH as [|k r Hk _ IHr]; intro a; simpl; auto.
      rewrite Hk. destruct (withFirstMatch sel g k a). now rewrite IHr. }
    now rewrite L, E.
  - assert (L : forall a, forEachState (withFirstMatch sel f) kids a
                          = forEachState (withFirstMatch sel g) kids a).
    { clear b. induction IH as [|k r Hk _ IHr]; intro a; simpl; auto.
      rewrite Hk. destruct (withFirstMatch sel g k a). now rewrite IHr. }
    now rewrite L.
Qed.

Lemma firstMatchIn_keeps (X : Type) (q : ElementData -> X) (sel : ElementData -> bool)
    (f : ElementData -> ElementData) (l : list ElementData) :
  (forall e, q (f e) = q e) ->
  forall b, map q (fst (firstMatchIn sel f l b)) = map q l.
Proof.
  intro Q. induction l as [|e r IH]; intro b; simpl; auto.
  specialize (IH (b || negb b && sel e)).
  destruct (firstMatchIn sel f r (b || negb b && sel e)). simpl in *.
  rewrite IH. f_equal. destruct (negb b && sel e); auto.
Qed.

Lemma convertToTree_mapElements (g : ElementData -> ElementData) (n : Node) :
  (forall e, tagName (g e) = tagName e /\ attributes (g e) = attributes e) ->
  convertToTree (mapElements g n) = convertToTree n.
Proof.
  intro G.
  induction n as [e kids IH|d|d|kids IH] using Node_nested_ind; simpl; auto.
  destruct (G e) as [-> ->]. f_equal. f_equal.
  - f_equal. f_equal. rewrite map_map.
    clear - kids. induction kids as [|k r IHr]; simpl; auto.
    now rewrite descendantText_mapElements, IHr.
  - induction IH as [|k r Hk _ IHr]; simpl; auto. now rewrite Hk, IHr.
Qed.

(** ** Class lists, once more *)

Lemma filter_absent (cls : string) (cl : list string) :
  existsb (String.eqb cls) cl = false -> filter (keepsOut cls) cl = cl.
Proof.
  induction cl as [|c r IH]; simpl; auto. intro H.
  apply orb_false_iff in H as [H1 H2]. unfold keepsOut at 1. rewrite H1. simpl.
  now rewrite IH.
Qed.

Lemma filter_twice (A : Type) (p q : A -> bool) (l : list A) :
  filter p (filter q l) = filter (fun x => q x && p x) l.
Proof.
  induction l as [|x r IH]; simpl; auto.
  destruct (q x); simpl; [destruct (p x)|]; simpl; congruence.
Qed.

Lemma classListRemove_add (cls : string) (e : ElementData) :
  classListRemove cls (classListAdd cls e) = classListRemove cls e.
Proof.
  unfold classListAdd. destruct (hasClass cls e); auto.
  unfold classListRemove. simpl. f_equal. rewrite filter_app. simpl.
  rewrite String.eqb_refl. simpl. apply app_nil_r.
Qed.

Lemma classListAdd_add (cls : string) (e : ElementData) :
  classListAdd cls (classListAdd cls e) = classListAdd cls e.
Proof.
  unfold classListAdd at 1. now rewrite hasClass_add_same.
Qed.

Lemma classListRemove_remove (cls : string) (e : ElementData) :
  classListRemove cls (classListRemove cls e) = classListRemove cls e.
Proof.
  unfold classListRemove. simpl. f_equal. rewrite filter_twice.
  apply filter_ext. intro c. now destruct (negb (String.eqb cls c)).
Qed.

Lemma classListRemove_absent (cls : string) (e : ElementData) :
  hasClass cls e = false -> classListRemove cls e = e.
Proof.
  destruct e as [tg ats cl]. unfold hasClass, classListRemove. simpl. intro H.
  f_equal. now apply (filter_absent cls).
Qed.

(** [resetHTMLHighlights] on one element: both marker classes are
    filtered out of the class list. *)
Lemma unmarked_filters (e : ElementData) :
  unmarked e
  = mkElementData (tagName e) (attributes e)
      (filter (keepsOut hoveredClass) (filter (keepsOut selectedClass) (classList e))).
Proof.
  assert (R : forall cls x,
             (if hasClass cls x then classListRemove cls x else x)
             = mkElementData (tagName x) (attributes x)
                 (filter (keepsOut cls) (classList x))).
  { intros cls x. destruct (hasClass cls x) eqn:H; [reflexivity|].
    rewrite <- (classListRemove_absent cls x H) at 1. reflexivity. }
  unfold unmarked. rewrite (R selectedClass e). apply R.
Qed.

Lemma unmarked_forgets (cls : string) (e : ElementData) :
  cls = selectedClass \/ cls = hoveredClass ->
  unmarked (classListAdd cls e) = unmarked e /\
  unmarked (classListRemove cls e) = unmarked e.
Proof.
  intro C. rewrite !unmarked_filters. split.
  - unfold classListAdd. destruct (hasClass cls e); auto. simpl. f_equal.
    rewrite !filter_app. simpl.
    destruct C as [-> | ->]; simpl; now rewrite app_nil_r.
  - simpl. f_equal. rewrite !filter_twice. apply filter_ext. intro c.
    unfold keepsOut.
    destruct C as [-> | ->];
      destruct (String.eqb selectedClass c), (String.eqb hoveredClass c); reflexivity.
Qed.

Lemma unmarked_unmarked (e : ElementData) : unmarked (unmarked e) = unmarked e.
Proof.
  rewrite (unmarked_filters (unmarked e)), unmarked_filters. simpl. f_equal.
  rewrite !filter_twice. apply filter_ext. intro c.
  destruct (keepsOut selectedClass c), (keepsOut hoveredClass c); reflexivity.
Qed.

Lemma unmarked_other (cls : string) (e : ElementData) :
  cls <> selectedClass -> cls <> hoveredClass ->
  hasClass cls (unmarked e) = hasClass cls e.
Proof.
  intros D1 D2. unfold unmarked.
  destruct (hasClass selectedClass e);
    destruct (hasClass hoveredClass _);
    rewrite ?hasClass_remove_other; auto.
Qed.

(** ** The highlight functions as changes of the page *)

Lemma resetHTMLHighlights_preview (pg : Page) :
  preview (resetHTMLHighlights pg) = mapElements unmarked (preview pg).
Proof.
  unfold resetHTMLHighlights. cbn [preview].
  rewrite !forEachMatching_mapElements, mapElements_compose. reflexivity.
Qed.

Lemma highlightTreeNode_page (id : string) (pg : Page) :
  highlightTreeNode id pg
  = mkPage (nodeIdCounter pg)
      (map (fun v => mkVizNode (datum v) (boundTo id v)) (treeViz pg))
      (fst (withFirstMatch (byNodeId id) (classListAdd selectedClass)
              (mapElements unmarked (preview pg)) false)).
Proof.
  pose proof (highlightTreeNode_treeViz id pg) as T.
  unfold highlightTreeNode in *. cbn [nodeIdCounter treeViz preview] in *.
  rewrite T. f_equal.
  change (forEachMatching (hasClass "hovered") (classListRemove "hovered")
            (forEachMatching (hasClass "highlighted") (classListRemove "highlighted")
               (preview pg)))
    with (preview (resetHTMLHighlights pg)).
  now rewrite resetHTMLHighlights_preview.
Qed.

Lemma perform_stripClasses (c : Call) (pg : Page) :
  stripClasses (preview (perform pg c)) = stripClasses (preview pg).
Proof.
  unfold stripClasses.
  destruct c as [id|id|id]; cbn [perform].
  - rewrite highlightTreeNode_page. cbn [preview].
    rewrite mapElements_withFirstMatch.
    + rewrite mapElements_compose. apply mapElements_ext.
      intro e. rewrite unmarked_filters. reflexivity.
    + intro e. unfold classListAdd. now destruct (hasClass selectedClass e).
  - unfold highlightHTMLSide. cbn [preview].
    apply mapElements_withFirstMatch.
    intro e. unfold classListAdd. now destruct (hasClass "hovered" e).
  - unfold unhighlightHTMLSide. cbn [preview].
    now apply mapElements_withFirstMatch.
Qed.

Lemma perform_data (c : Call) (pg : Page) :
  map datum (treeViz (perform pg c)) = map datum (treeViz pg) /\
  nodeIdCounter (perform pg c) = nodeIdCounter pg.
Proof.
  destruct c as [id|id|id]; cbn [perform]; auto.
  split; [apply highlightTreeNode_data | reflexivity].
Qed.

Lemma perform_other_classes (cls : string) (c : Call) (pg : Page) :
  cls <> selectedClass -> cls <> hoveredClass ->
  map (hasClass cls) (elements (preview (perform pg c)))
  = map (hasClass cls) (elements (preview pg)).
Proof.
  intros D1 D2. destruct c as [id|id|id]; cbn [perform].
  - rewrite highlightTreeNode_elements, firstMatchIn_keeps, map_map.
    + apply map_ext. intro e. now apply unmarked_other.
    + intro e. apply hasClass_add_other. congruence.
  - rewrite highlightHTMLSide_elements. apply firstMatchIn_keeps.
    intro e. apply hasClass_add_other. congruence.
  - rewrite unhighlightHTMLSide_elements. apply firstMatchIn_keeps.
    intro e. apply hasClass_remove_other. congruence.
Qed.

Lemma stripClasses_reads (n n' : Node) :
  stripClasses n = stripClasses n' ->
  convertToTree n = convertToTree n' /\ identifiers n = identifiers n'.
Proof.
  intro H. split.
  - rewrite <- (convertToTree_mapElements withoutClasses n) by (intro; split; reflexivity).
    rewrite <- (convertToTree_mapElements withoutClasses n') by (intro; split; reflexivity).
    unfold stripClasses in H. now rewrite H.
  - apply (f_equal identifiers) in H. unfold identifiers, stripClasses in H.
    rewrite !mapElements_elements, !map_map in H. exact H.
Qed.

(** X8.  Whatever calls the handlers make, selections and hovers in any
    order, they change marker classes and nothing else: the document of the
    preview with its class lists emptied is the same, so the tree extracted
    from it and the identifiers on it are the same; every class other than
    [highlighted] and [hovered] is where it was; the data bound to the
    groups of the diagram and the counter are unchanged. *)
Theorem highlight_calls_change_only_markers (calls : list Call) (pg : Page) :
  let pg' := performAll calls pg in
  stripClasses (preview pg') = stripClasses (preview pg) /\
  convertToTree (preview pg') = convertToTree (preview pg) /\
  identifiers (preview pg') = identifiers (preview pg) /\
  map datum (treeViz pg') = map datum (treeViz pg) /\
  nodeIdCounter pg' = nodeIdCounter pg /\
  forall cls, cls <> selectedClass -> cls <> hoveredClass ->
    map (hasClass cls) (elements (preview pg'))
    = map (hasClass cls) (elements (preview pg)).
Proof.
  unfold performAll. revert pg.
  induction calls as [|c r IH]; intro pg; simpl.
  - repeat split; auto.
  - destruct (IH (perform pg c)) as (S & _ & _ & D & N & O).
    destruct (perform_data c pg) as [D' N'].
    assert (S' : stripClasses (preview (fold_left perform r (perform pg c)))
                 = stripClasses (preview pg))
      by (rewrite S; apply perform_stripClasses).
    destruct (stripClasses_reads _ _ S') as [T I].
    repeat split; auto; try congruence.
    intros cls D1 D2. rewrite (O cls D1 D2). now apply perform_other_classes.
Qed.

Lemma perform_then_select (id : string) (c : Call) (pg : Page) :
  highlightTreeNode id (perform pg c) = highlightTreeNode id pg.
Proof.
  rewrite !highlightTreeNode_page.
  destruct (perform_data c pg) as [D N]. rewrite N. f_equal.
  - assert (E : forall l l' : list VizNode,
               map datum l = map datum l' ->
               map (fun v => mkVizNode (datum v) (boundTo id v)) l
               = map (fun v => mkVizNode (datum v) (boundTo id v)) l').
    { induction l as [|v l IH]; intros [|v' l'] H; simpl in *; try discriminate; auto.
      injection H as Hv Hl. unfold boundTo. rewrite Hv. f_equal. now apply IH. }
    now apply E.
  - f_equal. f_equal.
    destruct c as [a|a|a]; cbn [perform].
    + rewrite highlightTreeNode_page. cbn [preview].
      rewrite mapElements_withFirstMatch
        by (intro e; apply (unmarked_forgets e (or_introl eq_refl))).
      rewrite mapElements_compose. apply mapElements_ext, unmarked_unmarked.
    + unfold highlightHTMLSide. cbn [preview].
      apply mapElements_withFirstMatch.
      intro e. apply (unmarked_forgets e (or_intror eq_refl)).
    + unfold unhighlightHTMLSide. cbn [preview].
      apply mapElements_withFirstMatch.
      intro e. apply (unmarked_forgets e (or_intror eq_refl)).
Qed.

(** X9.  The last selection wins: the page after [highlightTreeNode]
    does not depend on the selections and hovers made before it.  Whatever
    calls came first, selecting [id] gives the page that selecting [id]
    straight away gives; in particular selecting the same node twice is
    selecting it once, and every hover marker is gone after a selection. *)
Theorem last_selection_wins (id : string) (calls : list Call) (pg : Page) :
  highlightTreeNode id (performAll calls pg) = highlightTreeNode id pg /\
  previewMarked hoveredClass (highlightTreeNode id (performAll calls pg)) = [].
Proof.
  assert (E : highlightTreeNode id (performAll calls pg) = highlightTreeNode id pg).
  { unfold performAll. revert pg. induction calls as [|c r IH]; intro pg; simpl; auto.
    rewrite IH. apply perform_then_select. }
  split; [exact E|]. rewrite E. unfold previewMarked.
  rewrite highlightTreeNode_elements.
  apply (filter_nil_by_flags _ _ (map unmarked (elements (preview pg)))).
  - apply firstMatchIn_keeps. intro e. apply hasClass_add_other. discriminate.
  - apply filter_map_none, unmarked_hovered.
Qed.

Lemma byNodeId_classes (id cls : string) (e : ElementData) :
  byNodeId id (classListAdd cls e) = byNodeId id e /\
  byNodeId id (classListRemove cls e) = byNodeId id e.
Proof.
  split; [|reflexivity]. unfold classListAdd. now destruct (hasClass cls e).
Qed.

Lemma firstMatch_twice (id : string) (f1 f2 g : ElementData -> ElementData) (n : Node) :
  (forall e, byNodeId id (f1 e) = byNodeId id e) ->
  (forall e, f2 (f1 e) = g e) ->
  fst (withFirstMatch (byNodeId id) f2
         (fst (withFirstMatch (byNodeId id) f1 n false)) false)
  = fst (withFirstMatch (byNodeId id) g n false).
Proof.
  intros S E. rewrite withFirstMatch_compose by exact S.
  now rewrite (withFirstMatch_ext (byNodeId id) (fun e => f2 (f1 e)) g n E).
Qed.

(** X10.  Setting the hover twice is setting it once, clearing it twice
    is clearing it once, and clearing after setting is clearing: the hover
    marker does not pile up, and one [mouseout] undoes any number of
    [mouseover] on the same node. *)
Theorem hover_calls_do_not_pile_up (id : string) (pg : Page) :
  highlightHTMLSide id (highlightHTMLSide id pg) = highlightHTMLSide id pg /\
  unhighlightHTMLSide id (unhighlightHTMLSide id pg) = unhighlightHTMLSide id pg /\
  unhighlightHTMLSide id (highlightHTMLSide id pg) = unhighlightHTMLSide id pg.
Proof.
  unfold highlightHTMLSide, unhighlightHTMLSide. cbn [nodeIdCounter treeViz preview].
  repeat split; f_equal; apply firstMatch_twice;
    intro e; try apply byNodeId_classes.
  - apply classListAdd_add.
  - apply classListRemove_remove.
  - apply classListRemove_add.
Qed.

(** X11.  Hover round trip: when the element that the identifier
    [node-k] addresses is not hovered (or no element carries [node-k]),
    setting and then clearing the hover on [node-k] gives back the page
    exactly as it was, class lists included. *)
Theorem hover_round_trip (k : nat) (pg : Page) :
  (forall e, find (byNodeId (nodeIdOf k)) (elements (preview pg)) = Some e ->
             hasClass hoveredClass e = false) ->
  unhighlightHTMLSide (nodeIdOf k) (highlightHTMLSide (nodeIdOf k) pg) = pg.
Proof.
  generalize (nodeIdOf k) as id. intros id H.
  destruct (hover_calls_do_not_pile_up id pg) as (_ & _ & ->).
  unfold unhighlightHTMLSide. destruct pg as [c tv pv]. cbn [nodeIdCounter treeViz preview] in *.
  f_equal. apply withFirstMatch_fixed. intros _ e He.
  apply classListRemove_absent. now apply H.
Qed.

Lemma hover_round_trip_witness :
  let pg := updateTree sampleParser divSpanMarkup blankPage in
  unhighlightHTMLSide "node-3" (highlightHTMLSide "node-3" pg) = pg.
Proof.
  intro pg. apply (@hover_round_trip 3 pg).
  intros e H. vm_compute in H. injection H as <-. reflexivity.
Defined.

(** X12.  A hover on an identifier [node-k] that no element of the
    preview carries does nothing at all: both hover functions return the
    page as it was, with the selection and every other hover marker in
    place. *)
Theorem hover_on_unknown_id_is_a_noop (k : nat) (pg : Page) :
  (forall e, In e (elements (preview pg)) -> byNodeId (nodeIdOf k) e = false) ->
  highlightHTMLSide (nodeIdOf k) pg = pg /\ unhighlightHTMLSide (nodeIdOf k) pg = pg.
Proof.
  generalize (nodeIdOf k) as id. intros id H. unfold highlightHTMLSide, unhighlightHTMLSide.
  rewrite !withFirstMatch_none by exact H. now destruct pg.
Qed.

Lemma hover_on_unknown_id_is_a_noop_witness :
  let pg := highlightTreeNode "node-3" (updateTree sampleParser divSpanMarkup blankPage) in
  highlightHTMLSide "node-9" pg = pg /\ unhighlightHTMLSide "node-9" pg = pg.
Proof.
  intro pg. apply (@hover_on_unknown_id_is_a_noop 9 pg).
  intros e H. vm_compute in H.
  repeat (destruct H as [<-|H]; [reflexivity|]). contradiction.
Defined.

(** ** The two surfaces after an update cycle *)

Lemma updateTree_surfaces (parseFromString : string -> Node) (html : string) (pg0 : Page) :
  elementTree (parseFromString html) = true ->
  let pg := updateTree parseFromString html pg0 in
  let N := length (elements (parseFromString html)) in
  identifiers (preview pg) = freshIds 0 N /\
  Permutation (map (fun v => nodeId (datum v)) (treeViz pg)) (identifiers (preview pg)).
Proof.
  intros W pg N. apply andb_true_iff in W as [E W].
  destruct (assignIds_taggedFrom (parseFromString html) W 0) as (_ & Hi & Hw & _).
  unfold pg. rewrite updateTree_preview. split; [exact Hi|].
  destruct (updateTree_treeViz parseFromString html pg0 E) as (t & Ht & ->).
  rewrite map_map. simpl.
  pose proof (extractedIds_identifiers _ Hw) as X. unfold extractedIds in X.
  rewrite Ht in X. rewrite <- X.
  apply Permutation_map, descendants_treeNodes.
Qed.

(** When the written [outerHTML] parses back to the tagged tree, the
    update cycle leaves the tagged tree as the preview. *)
Lemma Rendered_updateTree_round_trip
    (parseFromString : string -> Node) (writeOuterHTML : Node -> Node)
    (html : string) (pg : Page) :
  writeOuterHTML (fst (assignIdsToElements (parseFromString html) 0))
  = fst (assignIdsToElements (parseFromString html) 0) ->
  Rendered.updateTree parseFromString writeOuterHTML html pg
  = updateTree parseFromString html pg.
Proof.
  unfold Rendered.updateTree, updateTree, Rendered.renderHTML, renderHTML.
  cbn [nodeIdCounter treeViz preview].
  destruct (assignIdsToElements (parseFromString html) 0) as [tagged c].
  simpl. intros ->. reflexivity.
Qed.

(** X13.  After an update cycle on an element tree whose written
    [outerHTML] the iframe parses back to the tagged tree, and after any
    selections and hovers made since, the diagram and the preview show the
    same document: the identifiers bound to the groups are the identifiers
    on the elements of the preview, each exactly once, so there are as many
    groups as elements, and the tree extracted from the preview is the tree
    the groups were drawn from. *)
Theorem surfaces_show_the_same_document
    (parseFromString : string -> Node) (writeOuterHTML : Node -> Node)
    (html : string) (pg0 : Page) (calls : list Call) :
  elementTree (parseFromString html) = true ->
  writeOuterHTML (fst (assignIdsToElements (parseFromString html) 0))
  = fst (assignIdsToElements (parseFromString html) 0) ->
  let pg := performAll calls
              (Rendered.updateTree parseFromString writeOuterHTML html pg0) in
  Permutation (map (fun v => nodeId (datum v)) (treeViz pg)) (identifiers (preview pg)) /\
  NoDup (identifiers (preview pg)) /\
  length (treeViz pg) = length (elements (preview pg)) /\
  exists t, convertToTree (preview pg) = Some t /\
            Permutation (map datum (treeViz pg)) (treeNodes t).
Proof.
  intros W R. rewrite (Rendered_updateTree_round_trip _ _ _ pg0 R). intro pg.
  destruct (highlight_calls_change_only_markers calls
              (updateTree parseFromString html pg0)) as (_ & T & I & D & _).
  fold pg in T, I, D.
  destruct (updateTree_surfaces parseFromString html pg0 W) as [F P].
  assert (P' : Permutation (map (fun v => nodeId (datum v)) (treeViz pg))
                 (identifiers (preview pg))).
  { rewrite I, <- (map_map datum nodeId), D, map_map. exact P. }
  split; [exact P'|]. split; [rewrite I, F; apply freshIds_NoDup|]. split.
  - apply Permutation_length in P'. unfold identifiers in P'.
    now rewrite !length_map in P'.
  - apply andb_true_iff in W as [E _].
    destruct (updateTree_treeViz parseFromString html pg0 E) as (t & Ht & Hv).
    exists t. split.
    + rewrite T, updateTree_preview. exact Ht.
    + rewrite D, Hv, map_map. simpl. rewrite map_id. apply descendants_treeNodes.
Qed.

Lemma surfaces_show_the_same_document_witness :
  let pg := performAll [Select "node-3"; Hover "node-4"]
              (Rendered.updateTree sampleParser (fun n => n) divSpanMarkup blankPage) in
  length (treeViz pg) = length (elements (preview pg)).
Proof.
  destruct (@surfaces_show_the_same_document sampleParser (fun n => n) divSpanMarkup
              blankPage [Select "node-3"; Hover "node-4"] eq_refl eq_refl)
    as (_ & _ & L & _).
  exact L.
Defined.

(** On an element tree the Tree Nodes in pre-order carry the identifiers
    and the lower-cased tag names of the elements in document order. *)
Lemma extracted_labels (n : Node) :
  noFragment n = true ->
  match convertToTree n with
  | Some t => map (fun p => (nodeId p, name p)) (treeNodes t)
  | None => []
  end
  = map (fun e => (identifier e, JsString.toLowerCase (tagName e))) (elements n).
Proof.
  induction n as [e kids IH|d|d|kids IH] using Node_nested_ind; intro W;
    try discriminate; auto.
  simpl. f_equal. simpl in W.
  induction IH as [|k r Hk _ IHr]; simpl; auto.
  simpl in W. apply andb_true_iff in W as [Wk Wr].
  specialize (Hk Wk). specialize (IHr Wr).
  rewrite map_app, <- Hk, <- IHr.
  destruct (convertToTree k); simpl; auto. now rewrite map_app.
Qed.

Lemma NoDup_fst_functional (A B : Type) (l : list (A * B)) (a : A) (b c : B) :
  NoDup (map fst l) -> In (a, b) l -> In (a, c) l -> b = c.
Proof.
  induction l as [|[x y] r IH]; simpl; [contradiction|].
  intros N Hb Hc. inversion N as [|? ? Hx Nr]; subst.
  destruct Hb as [Eb|Hb], Hc as [Ec|Hc].
  - congruence.
  - injection Eb as -> ->. exfalso. apply Hx.
    change a with (fst (a, c)). now apply in_map.
  - injection Ec as -> ->. exfalso. apply Hx.
    change a with (fst (a, b)). now apply in_map.
  - eauto.
Qed.

Lemma one_of_a_kind (A B : Type) (g : A -> B) (b : B) (l : list A) :
  length l <= 1 -> l <> [] -> (forall x, In x l -> g x = b) ->
  exists x, l = [x] /\ g x = b.
Proof.
  destruct l as [|x [|y r]]; simpl; intros L N H.
  - contradiction.
  - exists x. split; auto.
  - lia.
Qed.

Lemma updateTree_labels (parseFromString : string -> Node) (html : string) (pg0 : Page) :
  elementTree (parseFromString html) = true ->
  let pg := updateTree parseFromString html pg0 in
  forall v, In v (treeViz pg) ->
    In (nodeId (datum v), name (datum v))
       (map (fun e => (identifier e, JsString.toLowerCase (tagName e)))
          (elements (preview pg))).
Proof.
  intros W pg v Hv. apply andb_true_iff in W as [E W].
  destruct (assignIds_taggedFrom (parseFromString html) W 0) as (_ & _ & Hw & _).
  destruct (updateTree_treeViz parseFromString html pg0 E) as (t & Ht & Hd).
  unfold pg in *. rewrite updateTree_preview.
  pose proof (extracted_labels _ Hw) as X. rewrite Ht in X. rewrite <- X.
  rewrite Hd in Hv. apply in_map_iff in Hv as (d & <- & Hd').
  simpl. apply (in_map (fun p => (nodeId p, name p))).
  now apply (Permutation_in _ (descendants_treeNodes t)).
Qed.

(** X14.  The link between the two views.  After an update cycle on an
    element tree with [N] elements whose written [outerHTML] the iframe
    parses back to the tagged tree, and whatever was selected or hovered
    since, selecting [node-k] for [k < N] marks exactly one group of the
    diagram and exactly one element of the preview; both carry [node-k],
    and the name shown for the group is the lower-cased tag name of the
    marked element.  For [k >= N] nothing is marked on either surface. *)
Theorem selection_links_the_two_views
    (parseFromString : string -> Node) (writeOuterHTML : Node -> Node)
    (html : string) (pg0 : Page) (calls : list Call) (k : nat) :
  elementTree (parseFromString html) = true ->
  writeOuterHTML (fst (assignIdsToElements (parseFromString html) 0))
  = fst (assignIdsToElements (parseFromString html) 0) ->
  let N := length (elements (parseFromString html)) in
  let pg := highlightTreeNode (nodeIdOf k)
              (performAll calls
                 (Rendered.updateTree parseFromString writeOuterHTML html pg0)) in
  (k < N ->
   exists v e,
     vizSelected pg = [v] /\ previewMarked selectedClass pg = [e] /\
     nodeId (datum v) = Some (nodeIdOf k) /\ identifier e = Some (nodeIdOf k) /\
     labelText (datum v) = JsString.toLowerCase (tagName e)) /\
  (N <= k -> vizSelected pg = [] /\ previewMarked selectedClass pg = []).
Proof.
  intros W R. rewrite (Rendered_updateTree_round_trip _ _ _ pg0 R). intros N pg.
  set (start := updateTree parseFromString html pg0).
  set (id := nodeIdOf k).
  assert (E : pg = highlightTreeNode id start)
    by (unfold pg; apply last_selection_wins).
  destruct (updateTree_surfaces parseFromString html pg0 W) as [F P].
  fold start in F, P. fold N in F.
  assert (D : distinctGroups start).
  { unfold distinctGroups. apply (Permutation_NoDup (Permutation_sym P)).
    rewrite F. apply freshIds_NoDup. }
  destruct (highlightTreeNode_single id D) as (L1 & L2 & Hv & He).
  rewrite <- E in L1, L2, Hv, He.
  destruct (highlight_calls_change_only_markers [Select id] start)
    as (S & _ & I & Dt & _).
  change (performAll [Select id] start) with (highlightTreeNode id start) in S, I, Dt.
  rewrite <- E in S, I, Dt.
  assert (Fresh : forall j, In (Some (nodeIdOf j)) (freshIds 0 N) <-> j < N).
  { intro j. unfold freshIds. rewrite in_map_iff. split.
    - intros (x & Hx & Hin). apply in_seq in Hin.
      assert (x = j) by (apply nodeIdOf_inj; congruence). lia.
    - intro Hj. exists j. split; auto. apply in_seq. lia. }
  assert (Vin : forall v, In v (vizSelected pg) ->
                          In (datum v) (map datum (treeViz start))).
  { intros v Hin. rewrite <- Dt. apply in_map.
    unfold vizSelected in Hin. now apply filter_In in Hin. }
  assert (Vk : forall v, In v (vizSelected pg) -> k < N).
  { intros v Hin. apply Fresh. rewrite <- F. apply (Permutation_in _ P).
    rewrite <- (map_map datum nodeId). fold id. rewrite <- (Hv v Hin).
    apply in_map. now apply Vin. }
  assert (Ek : forall e, In e (previewMarked selectedClass pg) -> k < N).
  { intros e Hin. apply Fresh. rewrite <- F, <- I. fold id. rewrite <- (He e Hin).
    apply in_map. unfold previewMarked in Hin. now apply filter_In in Hin. }
  split.
  - intro Hk. apply Fresh in Hk. fold id in Hk.
    assert (V0 : vizSelected pg <> []).
    { assert (Q : In (Some id) (map (fun v => nodeId (datum v)) (treeViz start)))
        by (apply (Permutation_in _ (Permutation_sym P)); now rewrite F).
      apply in_map_iff in Q as (v0 & Hid & Hin).
      intro Z. assert (X : In (mkVizNode (datum v0) (boundTo id v0)) (vizSelected pg)).
      { rewrite E. unfold vizSelected. rewrite highlightTreeNode_treeViz.
        apply filter_In. split.
        - now apply (in_map (fun v => mkVizNode (datum v) (boundTo id v))).
        - simpl. now apply boundTo_nodeId. }
      rewrite Z in X. destruct X. }
    assert (E0 : previewMarked selectedClass pg <> []).
    { rewrite <- F in Hk. unfold identifiers in Hk.
      apply in_map_iff in Hk as (e0 & Hid & Hin).
      rewrite E. unfold previewMarked. rewrite highlightTreeNode_elements.
      destruct (firstMatchIn_split (byNodeId id) (classListAdd selectedClass)
                  (map unmarked (elements (preview start))))
        as [[A _]|(l1 & x & l2 & _ & _ & _ & ->)].
      - rewrite Forall_forall in A.
        specialize (A (unmarked e0) (in_map unmarked _ _ Hin)).
        assert (B : byNodeId id (unmarked e0) = true)
          by (apply byNodeId_identifier; now rewrite unmarked_identifier).
        congruence.
      - intro Z.
        assert (X : In (classListAdd selectedClass x)
                      (filter (hasClass selectedClass)
                         (l1 ++ classListAdd selectedClass x :: l2))).
        { apply filter_In. split; [|apply hasClass_add_same].
          apply in_or_app. right. now left. }
        rewrite Z in X. destruct X. }
    destruct (one_of_a_kind (fun v => nodeId (datum v)) L1 V0 Hv) as (v & Ev & Iv).
    destruct (one_of_a_kind identifier L2 E0 He) as (e & Ee & Ie).
    exists v, e. repeat split; auto.
    unfold labelText.
    apply (@NoDup_fst_functional _ _
             (map (fun e => (identifier e, JsString.toLowerCase (tagName e)))
                (elements (preview start))) (Some id)).
    + rewrite map_map. simpl. change (NoDup (identifiers (preview start))).
      rewrite F. apply freshIds_NoDup.
    + rewrite <- Iv.
      assert (Hd : In (datum v) (map datum (treeViz start)))
        by (apply Vin; rewrite Ev; now left).
      apply in_map_iff in Hd as (w & Hw & Hin). rewrite <- Hw.
      now apply updateTree_labels.
    + rewrite <- Ie.
      assert (X : map (fun e => (identifier e, JsString.toLowerCase (tagName e)))
                    (elements (preview pg))
                  = map (fun e => (identifier e, JsString.toLowerCase (tagName e)))
                      (elements (preview start))).
      { apply (f_equal elements) in S. unfold stripClasses in S.
        rewrite !mapElements_elements in S.
        apply (f_equal (map (fun e => (identifier e, JsString.toLowerCase (tagName e)))))
          in S.
        rewrite !map_map in S. exact S. }
      rewrite <- X. apply (in_map (fun e => (identifier e, JsString.toLowerCase (tagName e)))).
      assert (Hin : In e (previewMarked selectedClass pg)) by (rewrite Ee; now left).
      unfold previewMarked in Hin. now apply filter_In in Hin.
  - intro Hk. split.
    + destruct (vizSelected pg) as [|v r] eqn:Z; auto.
      specialize (Vk v (or_introl eq_refl)). lia.
    + destruct (previewMarked selectedClass pg) as [|e r] eqn:Z; auto.
      specialize (Ek e (or_introl eq_refl)). lia.
Qed.

Lemma selection_links_the_two_views_witness :
  let pg := highlightTreeNode (nodeIdOf 3)
              (performAll [Hover "node-4"; Select "node-1"]
                 (Rendered.updateTree sampleParser (fun n => n) divSpanMarkup
                    blankPage)) in
  exists v e,
    vizSelected pg = [v] /\ previewMarked selectedClass pg = [e] /\
    labelText (datum v) = JsString.toLowerCase (tagName e).
Proof.
  intro pg.
  destruct (@selection_links_the_two_views sampleParser (fun n => n) divSpanMarkup
              blankPage [Hover "node-4"; Select "node-1"] 3 eq_refl eq_refl) as [H _].
  destruct H as (v & e & Hv & He & _ & _ & Hl).
  - simpl. lia.
  - exists v, e. repeat split; [exact Hv | exact He | exact Hl].
Defined.

(** X15.  The two reset functions: after [resetTreeHighlights] no group
    is selected and after [resetHTMLHighlights] no element is selected or
    hovered; each does a second time what it did the first, each leaves a
    page without markers exactly as it is, and [resetHTMLHighlights] removes
    no class other than the two markers. *)
Theorem resets_remove_the_markers_only (pg : Page) :
  vizSelected (resetTreeHighlights pg) = [] /\
  previewMarked selectedClass (resetHTMLHighlights pg) = [] /\
  previewMarked hoveredClass (resetHTMLHighlights pg) = [] /\
  resetTreeHighlights (resetTreeHighlights pg) = resetTreeHighlights pg /\
  resetHTMLHighlights (resetHTMLHighlights pg) = resetHTMLHighlights pg /\
  (vizSelected pg = [] -> resetTreeHighlights pg = pg) /\
  (previewMarked selectedClass pg = [] -> previewMarked hoveredClass pg = [] ->
   resetHTMLHighlights pg = pg) /\
  (forall cls, cls <> selectedClass -> cls <> hoveredClass ->
     map (hasClass cls) (elements (preview (resetHTMLHighlights pg)))
     = map (hasClass cls) (elements (preview pg))).
Proof.
  assert (R : forall p, resetHTMLHighlights p
                        = mkPage (nodeIdCounter p) (treeViz p)
                            (mapElements unmarked (preview p))).
  { intro p. rewrite <- resetHTMLHighlights_preview. reflexivity. }
  repeat split.
  - unfold vizSelected, resetTreeHighlights. cbn [treeViz]. now apply filter_map_none.
  - unfold previewMarked. rewrite resetHTMLHighlights_elements.
    apply filter_map_none, unmarked_selected.
  - unfold previewMarked. rewrite resetHTMLHighlights_elements.
    apply filter_map_none, unmarked_hovered.
  - unfold resetTreeHighlights. cbn [treeViz nodeIdCounter preview].
    now rewrite map_map.
  - rewrite (R (resetHTMLHighlights pg)), (R pg). cbn [nodeIdCounter treeViz preview].
    f_equal. rewrite mapElements_compose. apply mapElements_ext, unmarked_unmarked.
  - intro H. unfold resetTreeHighlights. rewrite (vizSelected_none pg H). now destruct pg.
  - intros Hs Hh. rewrite R. destruct pg as [c tv pv]. cbn [nodeIdCounter treeViz preview] in *.
    f_equal. apply mapElements_fixed. intros e He.
    unfold previewMarked in Hs, Hh. cbn [preview] in Hs, Hh.
    apply filter_nil_Forall in Hs. apply filter_nil_Forall in Hh.
    rewrite Forall_forall in Hs, Hh.
    unfold unmarked. now rewrite (Hs e He), (Hh e He).
  - intros cls D1 D2. rewrite resetHTMLHighlights_elements, map_map.
    apply map_ext. intro e. now apply unmarked_other.
Qed.

(** ** The properties above at sample inputs *)

Lemma identifier_encoding_is_injective_witness :
  numericPart (Some (nodeIdOf 12)) = Some 12.
Proof.
  destruct (identifier_encoding_is_injective 12 12 (el "P")) as (_ & H & _).
  exact H.
Defined.

Lemma tooltip_of_an_element_witness :
  exists t, convertToTree divSpan = Some t /\ titleText t = "div : AB".
Proof.
  destruct (@tooltip_of_an_element (el "DIV") [Text "A"; Element (el "SPAN") [Text "B"]]
              eq_refl eq_refl)
    as (t & Ht & _ & _ & H).
  destruct (H eq_refl) as (Hs & _).
  exists t. split; [exact Ht|].
  rewrite Hs. injection Ht as <-. reflexivity.
Defined.

Lemma highlight_calls_change_only_markers_witness :
  let pg := updateTree sampleParser hoveredMarkup blankPage in
  convertToTree (preview (performAll [Select "node-3"; Unhover "node-3"] pg))
  = convertToTree (preview pg).
Proof.
  intro pg.
  destruct (highlight_calls_change_only_markers [Select "node-3"; Unhover "node-3"] pg)
    as (_ & H & _).
  exact H.
Defined.

Lemma resets_remove_the_markers_only_witness :
  resetHTMLHighlights blankPage = blankPage.
Proof.
  destruct (resets_remove_the_markers_only blankPage) as (_ & _ & _ & _ & _ & _ & H & _).
  apply H; reflexivity.
Defined.
